(** * og-impact-editor: a shallow embedding of src/App.js

    The editor keeps three documents (HTML/Handlebars markup, CSS and the
    JSON data), re-renders a preview through Handlebars, persists the
    documents to local storage through a lodash debounce, and publishes the
    markup and styles to a remote endpoint with an API key.

    JavaScript values are modelled by [jsval]; code that may throw runs in
    the exception-and-log monad [M], whose log records the observable
    effects (alerts, console output and HTTP requests) in order. *)

From Stdlib Require Import ZArith String Ascii List Bool Lia.
From stdpp Require Import base gmap strings.
Import ListNotations.
Open Scope Z_scope.
Set Warnings "-register-all".

(* ------------------------------------------------------------------ *)
(** ** JavaScript values *)

Inductive jsval : Type :=
| JUndefined
| JNull
| JBool (b : bool)
| JNum (z : Z)
| JStr (s : string)
| JArr (xs : list jsval)
| JObj (fields : list (string * jsval)).

(** JavaScript truthiness ([!v] is [negb (js_truthy v)]). *)
Definition js_truthy (v : jsval) : bool :=
  match v with
  | JUndefined | JNull => false
  | JBool b => b
  | JNum z => negb (Z.eqb z 0)
  | JStr s => negb (String.eqb s "")
  | JArr _ | JObj _ => true
  end.

(** Property lookup in an object literal; the last binding wins, as for
    an object built by [JSON.parse]. *)
Fixpoint assoc (k : string) (fs : list (string * jsval)) : option jsval :=
  match fs with
  | [] => None
  | (k', v) :: rest =>
      match assoc k rest with
      | Some v' => Some v'
      | None => if String.eqb k k' then Some v else None
      end
  end.

Definition field_or_undefined (fs : list (string * jsval)) (k : string) : jsval :=
  match assoc k fs with Some v => v | None => JUndefined end.

(** Decimal rendering of an integer, as [String(n)] does. *)
Fixpoint digits_of (fuel : nat) (n : N) (acc : string) : string :=
  match fuel with
  | O => acc
  | S f =>
      let acc' := String (ascii_of_N (48 + N.modulo n 10)) acc in
      if (n <? 10)%N then acc' else digits_of f (N.div n 10) acc'
  end.

Definition z_to_string (z : Z) : string :=
  match z with
  | Z0 => "0"
  | Zpos p => digits_of (Pos.size_nat p) (Npos p) ""
  | Zneg p => String "-" (digits_of (Pos.size_nat p) (Npos p) "")
  end.

(** [JNum z] is the JavaScript number nearest to the integer [z], as
    [JSON.parse] reads a numeral: its magnitude is [|z|] rounded to 53
    significant bits, ties to even. *)
Definition round_double_mag (a : Z) : Z :=
  if a <? 2 ^ 53 then a
  else
    let sh := Z.log2 a - 52 in
    let q := Z.shiftr a sh in
    let r := a - Z.shiftl q sh in
    let half := Z.shiftl 1 (sh - 1) in
    let q' := if (half <? r) || ((r =? half) && Z.odd q) then q + 1 else q in
    Z.shiftl q' sh.

(** The shortest decimal [s * 10^p] that reads back as the double [d]
    (an integer of at least [2^53]), the closest to [d] among those, ties
    to an even [s]: the digits [Number.prototype.toString] prints.  The
    double's rounding interval is computed doubled, to stay in integers. *)
Definition shortest_big (d : Z) : Z * Z :=
  let e := Z.log2 d - 52 in
  let m := Z.shiftr d e in
  let lo2 := 2 * d - (if m =? 2 ^ 52 then 2 ^ (e - 1) else 2 ^ e) in
  let hi2 := 2 * d + 2 ^ e in
  let in_iv (x : Z) : bool :=
    if Z.even m then (lo2 <=? 2 * x) && (2 * x <=? hi2)
    else (lo2 <? 2 * x) && (2 * x <? hi2) in
  let fix search (fuel : nat) (p : Z) : Z * Z :=
    match fuel with
    | O => (d, 0)
    | S f =>
        let pw := 10 ^ p in
        let fl := d / pw * pw in
        let ce := fl + pw in
        let ok_fl := (0 <? fl) && in_iv fl in
        let ok_ce := in_iv ce in
        if ok_fl && ok_ce then
          if (d - fl <? ce - d) then (fl / pw, p)
          else if (ce - d <? d - fl) then (ce / pw, p)
          else if Z.even (fl / pw) then (fl / pw, p) else (ce / pw, p)
        else if ok_fl then (fl / pw, p)
        else if ok_ce then (ce / pw, p)
        else search f (p - 1)
    end in
  search (Z.to_nat (Z.log2 d + 2)) (Z.log2 d + 1).

(** Trailing zeros moved into the exponent: [d = s * 10^p]. *)
Fixpoint strip_zeros (fuel : nat) (s p : Z) : Z * Z :=
  match fuel with
  | O => (s, p)
  | S f => if (0 <? s) && (s mod 10 =? 0) then strip_zeros f (s / 10) (p + 1) else (s, p)
  end.

Fixpoint zeros (n : nat) : string :=
  match n with O => "" | S m => String "0" (zeros m) end.

(** [Number.prototype.toString()] of the number [JNum z]: decimal digits
    with trailing zeros up to 21 digits, the exponent form [d.ddde+N]
    beyond, and [Infinity] where the double overflows. *)
Definition number_to_string (z : Z) : string :=
  if z =? 0 then "0"
  else
    let sign := if z <? 0 then "-" else "" in
    let d := round_double_mag (Z.abs z) in
    if 2 ^ 1024 <=? d then (sign ++ "Infinity")%string
    else
      let '(s, p) := if d <? 2 ^ 53 then strip_zeros (Z.to_nat (Z.log2 d + 1)) d 0
                     else shortest_big d in
      let ds := z_to_string s in
      let k := Z.of_nat (String.length ds) in
      let n := k + p in
      if n <=? 21 then (sign ++ ds ++ zeros (Z.to_nat p))%string
      else
        match ds with
        | String c rest =>
            (sign ++ String c EmptyString
             ++ (if String.eqb rest "" then "" else "." ++ rest)
             ++ "e+" ++ z_to_string (n - 1))%string
        | EmptyString => sign
        end.

(* ------------------------------------------------------------------ *)
(** ** Exceptions, effects and the monad *)

(** The request axios sends: the URL, the JSON payload and the headers. *)
Record request : Type := mk_request {
  req_url : string;
  req_body : string;            (** payload field [body] *)
  req_styles : string;          (** payload field [styles] *)
  req_content_type : string;
  req_authorization : string
}.

Inductive exn : Type :=
| AxiosError (config : request) (response : option (Z * jsval))
    (** a rejected request: the [config] it was sent with (headers
        included) and the response status and data, none on a network
        failure; the [XMLHttpRequest] it also carries exposes no request
        header and is left out *)
| TypeError (msg : string)
| HandlebarsError (msg : string)
| JsonSyntaxError (msg : string)
| QuotaExceededError.

(** [ToString] as a template literal applies it: arrays join their
    elements with commas (null and undefined elements print as empty); an
    object with an own [toString] property, which from JSON is never
    callable, has no primitive value ([valueOf] returns the object), so
    the conversion throws. *)
Fixpoint js_to_string (v : jsval) : exn + string :=
  match v with
  | JUndefined => inr "undefined"
  | JNull => inr "null"
  | JBool true => inr "true"
  | JBool false => inr "false"
  | JNum z => inr (number_to_string z)
  | JStr s => inr s
  | JArr xs =>
      let fix join (l : list jsval) : exn + string :=
        match l with
        | [] => inr ""
        | [x] => match x with JUndefined | JNull => inr "" | _ => js_to_string x end
        | x :: rest =>
            match (match x with JUndefined | JNull => inr "" | _ => js_to_string x end) with
            | inl e => inl e
            | inr sx => match join rest with
                        | inl e => inl e
                        | inr sr => inr (sx ++ "," ++ sr)%string
                        end
            end
        end in
      join xs
  | JObj fs =>
      match assoc "toString" fs with
      | Some _ => inl (TypeError "Cannot convert object to primitive value")
      | None => inr "[object Object]"
      end
  end.

(** What App.js hands to [console.warn] / [console.log]. *)
Inductive logval : Type :=
| LStr (s : string)
| LExn (e : exn).

Inductive event : Type :=
| Alert (msg : string)
| ConsoleWarn (v : logval)
| ConsoleLog (v : logval)
| HttpPost (req : request)
| UnhandledRejection (e : exn)
    (** a promise rejected with [e] that nothing awaits ("Uncaught (in
        promise)") *).

Definition M (A : Type) : Type := list event -> (exn + A) * list event.

Definition ret {A} (a : A) : M A := fun log => (inr a, log).
Definition throw {A} (e : exn) : M A := fun log => (inl e, log).
Definition bind {A B} (m : M A) (k : A -> M B) : M B :=
  fun log => match m log with
             | (inl e, log') => (inl e, log')
             | (inr a, log') => k a log'
             end.
Definition emit (ev : event) : M unit := fun log => (inr tt, log ++ [ev]).
Definition try_catch {A} (m : M A) (h : exn -> M A) : M A :=
  fun log => match m log with
             | (inl e, log') => h e log'
             | (inr a, log') => (inr a, log')
             end.
Definition lift {A} (r : exn + A) : M A :=
  match r with inl e => throw e | inr a => ret a end.

Declare Scope js_scope.
Delimit Scope js_scope with js.
Notation "x <-- m ;; k" := (bind m (fun x => k))
  (at level 100, m at next level, right associativity) : js_scope.
Notation "m ;;; k" := (bind m (fun _ => k))
  (at level 100, right associativity) : js_scope.
Open Scope js_scope.

Definition alert (s : string) : M unit := emit (Alert s).
Definition console_warn (v : logval) : M unit := emit (ConsoleWarn v).
Definition console_log (v : logval) : M unit := emit (ConsoleLog v).

(** Reading a property: [undefined.x] and [null.x] throw a TypeError. *)
Definition get_prop (v : jsval) (k : string) : M jsval :=
  match v with
  | JUndefined => throw (TypeError ("Cannot read properties of undefined (reading '" ++ k ++ "')"))
  | JNull => throw (TypeError ("Cannot read properties of null (reading '" ++ k ++ "')"))
  | JObj fs => ret (field_or_undefined fs k)
  | _ => ret JUndefined
  end.

(* ------------------------------------------------------------------ *)
(** ** Publishing (App.js, [publish] and [Button]) *)

(** What the remote endpoint does with a request: an HTTP response with a
    status and a decoded JSON body, or no response at all. *)
Inductive http_outcome : Type :=
| HttpResponse (status : Z) (data : jsval)
| NetworkFailure.

Definition host : string := "https://ssfy.sh/chrisvxd/og-impact".

Definition missing_key_msg : string :=
  "Please provide your API key before publishing a template.".
Definition publish_fail_msg : string :=
  "Publish was unsuccessful. Please ensure you are providing a valid API key.".
Definition publish_ok_msg (template : string) : string :=
  "Save successful. Use template ID " ++ template ++ ".".

(** The request built by [axios.post(`${host}/publish`, { body: html,
    styles: css }, { headers: ... })]. *)
Definition publish_request (html css apiKey : string) : request :=
  {| req_url := host ++ "/publish";
     req_body := html;
     req_styles := css;
     req_content_type := "application/json";
     req_authorization := apiKey |}.

(** [axios.post]: one request; it resolves with the response when the
    status is 2xx (axios' default [validateStatus]) and rejects otherwise. *)
Definition axios_post (net : request -> http_outcome) (req : request) : M jsval :=
  emit (HttpPost req) ;;;
  match net req with
  | HttpResponse status data =>
      if (200 <=? status) && (status <? 300) then ret data
      else throw (AxiosError req (Some (status, data)))
  | NetworkFailure => throw (AxiosError req None)
  end.

(** [publish]: the callback of the "Publish to ogi.sh" button. *)
Definition publish (net : request -> http_outcome) (html css apiKey : string) : M unit :=
  if negb (js_truthy (JStr apiKey)) then
    alert missing_key_msg ;;; ret tt
  else
    try_catch
      (data <-- axios_post net (publish_request html css apiKey) ;;
       template <-- get_prop data "template" ;;
       id <-- lift (js_to_string template) ;;
       alert (publish_ok_msg id))
      (fun e =>
         alert publish_fail_msg ;;;
         console_log (LExn e)).

(** [Button]: while [loading] the button is disabled and a click does
    nothing; otherwise the handler sets [loading], awaits [onClick] and
    clears [loading].  A rejected [onClick] leaves the handler at the
    [await], so [loading] stays set.  Result: the new [loading] flag, and
    the outcome of the handler with the log. *)
Definition button_click (onClick : M unit) (loading : bool) (log : list event)
  : bool * ((exn + unit) * list event) :=
  if loading then (loading, (inr tt, log))
  else
    match onClick log with
    | (inl e, log') => (true, (inl e, log'))
    | (inr _, log') => (false, (inr tt, log'))
    end.

(* ------------------------------------------------------------------ *)
(** ** The library calls the editor relies on

    [handlebars.compile(t)(d)] and [JSON.parse(s)] are library code.  The
    theorems below take them as arbitrary functions ([compile] and
    [parse]); the concrete [hb_compile] and [json_parse] here implement a
    fragment of each and serve for evaluating examples only: [hb_compile]
    handles plain text and [{{path}}] substitutions with HTML escaping and
    reports every other mustache form as an error, [json_parse] accepts
    JSON without string escapes and without fractional numbers, and
    [json_stringify] below serialises values as [JSON.stringify] does. *)

Definition dquote : ascii := ascii_of_nat 34.
Definition is_ws (c : ascii) : bool :=
  Ascii.eqb c " " || Ascii.eqb c (ascii_of_nat 10) || Ascii.eqb c (ascii_of_nat 13)
  || Ascii.eqb c (ascii_of_nat 9).
Definition is_digit (c : ascii) : bool :=
  (48 <=? Z.of_nat (nat_of_ascii c)) && (Z.of_nat (nat_of_ascii c) <=? 57).

Fixpoint skip_ws (s : string) : string :=
  match s with
  | String c r => if is_ws c then skip_ws r else s
  | EmptyString => EmptyString
  end.

Fixpoint rtrim_ws (s : string) : string :=
  match s with
  | EmptyString => EmptyString
  | String c r =>
      let r' := rtrim_ws r in
      if is_ws c && String.eqb r' "" then "" else String c r'
  end.

(** Text up to the first [}}] and the text after it. *)
Fixpoint split_close (s : string) : option (string * string) :=
  match s with
  | String "}" (String "}" rest) => Some (EmptyString, rest)
  | String c rest =>
      match split_close rest with
      | Some (e, r) => Some (String c e, r)
      | None => None
      end
  | EmptyString => None
  end.

Fixpoint split_dots (s : string) : list string :=
  match s with
  | EmptyString => [EmptyString]
  | String c r =>
      match split_dots r with
      | seg :: segs => if Ascii.eqb c "." then EmptyString :: seg :: segs
                       else String c seg :: segs
      | [] => [String c EmptyString]
      end
  end.

Definition hb_lookup (v : jsval) (k : string) : jsval :=
  match v with JObj fs => field_or_undefined fs k | _ => JUndefined end.

Fixpoint hb_escape (s : string) : string :=
  match s with
  | EmptyString => EmptyString
  | String c r =>
      let e := hb_escape r in
      if Ascii.eqb c "&" then ("&amp;" ++ e)%string
      else if Ascii.eqb c "<" then ("&lt;" ++ e)%string
      else if Ascii.eqb c ">" then ("&gt;" ++ e)%string
      else if Ascii.eqb c dquote then ("&quot;" ++ e)%string
      else if Ascii.eqb c "'" then ("&#x27;" ++ e)%string
      else if Ascii.eqb c "`" then ("&#x60;" ++ e)%string
      else if Ascii.eqb c "=" then ("&#x3D;" ++ e)%string
      else String c e
  end.

Definition hb_expr (ctx : jsval) (expr : string) : exn + string :=
  let e := rtrim_ws (skip_ws expr) in
  match e with
  | String c _ =>
      if existsb (Ascii.eqb c) ["#"; "/"; "^"; "!"; ">"; "&"; "{"; "~"]%char
      then inl (HandlebarsError "mustache form outside the modelled fragment")
      else
        match fold_left hb_lookup (split_dots e) ctx with
        | JUndefined | JNull => inr ""
        | v => match js_to_string v with
               | inl e => inl e
               | inr str => inr (hb_escape str)
               end
        end
  | EmptyString => inl (HandlebarsError "Parse error: empty mustache")
  end.

Fixpoint hb_render (fuel : nat) (s : string) (ctx : jsval) : exn + string :=
  match fuel with
  | O => inr s
  | S f =>
      match s with
      | EmptyString => inr EmptyString
      | String "{" (String "{" rest) =>
          match split_close rest with
          | None => inl (HandlebarsError "Parse error: unterminated mustache")
          | Some (expr, rest') =>
              match hb_expr ctx expr, hb_render f rest' ctx with
              | inl e, _ => inl e
              | _, inl e => inl e
              | inr out, inr o => inr (out ++ o)%string
              end
          end
      | String c rest =>
          match hb_render f rest ctx with
          | inl e => inl e
          | inr o => inr (String c o)
          end
      end
  end.

(** [handlebars.compile(template)(data)] on the fragment above. *)
Definition hb_compile (template : string) (data : jsval) : exn + string :=
  hb_render (String.length template) template data.

Fixpoint parse_string_body (s : string) (acc : string) : option (string * string) :=
  match s with
  | EmptyString => None
  | String c r =>
      if Ascii.eqb c dquote then Some (acc, r)
      else if Ascii.eqb c "\" || (nat_of_ascii c <? 32)%nat then None
      else parse_string_body r (acc ++ String c EmptyString)%string
  end.

Fixpoint parse_digits (s : string) (acc : Z) (n : nat) : Z * nat * string :=
  match s with
  | String c r =>
      if is_digit c then parse_digits r (acc * 10 + (Z.of_nat (nat_of_ascii c) - 48)) (S n)
      else (acc, n, s)
  | EmptyString => (acc, n, s)
  end.

(** A JSON integer: optional minus, no leading zero, no fraction. *)
Definition parse_number (s : string) : option (jsval * string) :=
  let '(neg, s1) := match s with
                    | String "-" r => (true, r)
                    | _ => (false, s)
                    end in
  let '(z, n, rest) := parse_digits s1 0 O in
  let leading_zero := match s1 with
                      | String "0" (String c _) => is_digit c
                      | _ => false
                      end in
  let fraction := match rest with
                  | String c _ => Ascii.eqb c "." || Ascii.eqb c "e" || Ascii.eqb c "E"
                  | EmptyString => false
                  end in
  if (n =? O)%nat || leading_zero || fraction then None
  else Some (JNum (if neg then - z else z), rest).

Fixpoint parse_value (fuel : nat) (s : string) : option (jsval * string) :=
  match fuel with
  | O => None
  | S f =>
      match skip_ws s with
      | String "[" r =>
          match skip_ws r with
          | String "]" r' => Some (JArr [], r')
          | r' => parse_elems f r' []
          end
      | String "{" r =>
          match skip_ws r with
          | String "}" r' => Some (JObj [], r')
          | r' => parse_members f r' []
          end
      | String "n" (String "u" (String "l" (String "l" r))) => Some (JNull, r)
      | String "t" (String "r" (String "u" (String "e" r))) => Some (JBool true, r)
      | String "f" (String "a" (String "l" (String "s" (String "e" r)))) => Some (JBool false, r)
      | String c r as s' =>
          if Ascii.eqb c dquote then
            match parse_string_body r EmptyString with
            | Some (x, r') => Some (JStr x, r')
            | None => None
            end
          else parse_number s'
      | EmptyString => None
      end
  end
with parse_elems (fuel : nat) (s : string) (acc : list jsval) : option (jsval * string) :=
  match fuel with
  | O => None
  | S f =>
      match parse_value f s with
      | Some (v, r) =>
          match skip_ws r with
          | String "," r' => parse_elems f r' (acc ++ [v])
          | String "]" r' => Some (JArr (acc ++ [v]), r')
          | _ => None
          end
      | None => None
      end
  end
with parse_members (fuel : nat) (s : string) (acc : list (string * jsval))
  : option (jsval * string) :=
  match fuel with
  | O => None
  | S f =>
      match skip_ws s with
      | String c r =>
          if Ascii.eqb c dquote then
            match parse_string_body r EmptyString with
            | Some (k, r1) =>
                match skip_ws r1 with
                | String ":" r2 =>
                    match parse_value f r2 with
                    | Some (v, r3) =>
                        match skip_ws r3 with
                        | String "," r4 => parse_members f r4 (acc ++ [(k, v)])
                        | String "}" r4 => Some (JObj (acc ++ [(k, v)]), r4)
                        | _ => None
                        end
                    | None => None
                    end
                | _ => None
                end
            | None => None
            end
          else None
      | EmptyString => None
      end
  end.

(** [JSON.parse(s)] on the fragment; [None] is a thrown SyntaxError. *)
Definition json_parse (s : string) : option jsval :=
  match parse_value (2 * String.length s + 2) s with
  | Some (v, rest) => if String.eqb (skip_ws rest) "" then Some v else None
  | None => None
  end.

Definition hex_digit (n : nat) : ascii :=
  if (n <? 10)%nat then ascii_of_nat (48 + n) else ascii_of_nat (87 + n).

(** A JSON string literal: quote, backslash and control characters
    escaped as [JSON.stringify] escapes them. *)
Fixpoint json_quote_body (s : string) : string :=
  match s with
  | EmptyString => EmptyString
  | String c r =>
      let n := nat_of_ascii c in
      let esc :=
        if Ascii.eqb c dquote then String "\" (String dquote EmptyString)
        else if Ascii.eqb c "\" then "\\"%string
        else if (n =? 8)%nat then "\b"%string
        else if (n =? 9)%nat then "\t"%string
        else if (n =? 10)%nat then "\n"%string
        else if (n =? 12)%nat then "\f"%string
        else if (n =? 13)%nat then "\r"%string
        else if (n <? 32)%nat then
          String "\" (String "u" (String "0" (String "0"
            (String (hex_digit (n / 16)) (String (hex_digit (n mod 16)) EmptyString)))))
        else String c EmptyString in
      (esc ++ json_quote_body r)%string
  end.

Definition json_quote (s : string) : string :=
  (String dquote EmptyString ++ json_quote_body s ++ String dquote EmptyString)%string.

Fixpoint join_comma (l : list string) : string :=
  match l with
  | [] => ""
  | [x] => x
  | x :: rest => (x ++ "," ++ join_comma rest)%string
  end.

(** [JSON.stringify(v)] on the fragment of values whose object keys are
    distinct and not array indices (JavaScript lists index keys first);
    [None] is [undefined], which an array prints as [null] and an object
    omits.  Infinite numbers print as [null]. *)
Fixpoint json_value (v : jsval) : option string :=
  match v with
  | JUndefined => None
  | JNull => Some "null"%string
  | JBool true => Some "true"%string
  | JBool false => Some "false"%string
  | JNum z =>
      let t := number_to_string z in
      Some (if String.eqb t "Infinity" || String.eqb t "-Infinity" then "null"%string else t)
  | JStr s => Some (json_quote s)
  | JArr xs =>
      let fix elems (l : list jsval) : list string :=
        match l with
        | [] => []
        | x :: rest => match json_value x with Some t => t | None => "null"%string end :: elems rest
        end in
      Some ("[" ++ join_comma (elems xs) ++ "]")%string
  | JObj fs =>
      let fix members (l : list (string * jsval)) : list string :=
        match l with
        | [] => []
        | (k, x) :: rest =>
            match json_value x with
            | Some t => (json_quote k ++ ":" ++ t)%string :: members rest
            | None => members rest
            end
        end in
      Some ("{" ++ join_comma (members fs) ++ "}")%string
  end.

Definition json_stringify (v : jsval) : string :=
  match json_value v with Some t => t | None => "undefined"%string end.

(* ------------------------------------------------------------------ *)
(** ** The preview ([Preview]) *)

Definition compile_warning : string := "Error when compiling handlebars, using raw HTML".

(** The initialiser of [compiledHtml] ([useState(() => ...)]). *)
Definition preview_init (compile : string -> jsval -> exn + string)
    (html : string) (params : jsval) : M string :=
  try_catch (lift (compile html params))
    (fun e =>
       console_warn (LStr compile_warning) ;;;
       console_warn (LExn e) ;;;
       ret html).

(** The effect run when [debouncedHtml] or [debouncedParams] change; the
    result is the new value of [compiledHtml], which replaces the previous
    one ([compiledHtml], received for the record). *)
Definition preview_effect (compile : string -> jsval -> exn + string)
    (debouncedHtml : string) (debouncedParams : jsval) (compiledHtml : string)
  : M string :=
  try_catch
    (compiled <-- lift (compile debouncedHtml debouncedParams) ;;
     ret compiled)
    (fun e =>
       console_warn (LStr compile_warning) ;;;
       console_warn (LExn e) ;;;
       ret debouncedHtml).

(** The preview's first render and the effect run after it.  On the first
    render [useDebounce(v, 500)] returns [v] itself, so the effect compiles
    the same template and data as the initialiser, with the initialiser's
    output as the current [compiledHtml]. *)
Definition preview_mount (compile : string -> jsval -> exn + string)
    (html : string) (params : jsval) : M string :=
  compiledHtml <-- preview_init compile html params ;;
  preview_effect compile html params compiledHtml.

(* ------------------------------------------------------------------ *)
(** ** The editor session ([App]) *)

Record session : Type := mk_session {
  html : string;
  css : string;
  params : jsval;
  paramsJson : string;
  apiKey : string
}.

(** [setHtml], the [onChange] of the HTML editor. *)
Definition setHtml (v : string) (s : session) : session :=
  {| html := v; css := css s; params := params s; paramsJson := paramsJson s;
     apiKey := apiKey s |}.

(** [setCss], the [onChange] of the CSS editor. *)
Definition setCss (v : string) (s : session) : session :=
  {| html := html s; css := v; params := params s; paramsJson := paramsJson s;
     apiKey := apiKey s |}.

(** [onChange] of the API key input: [setApiKey(e.target.value)]. *)
Definition setApiKey (v : string) (s : session) : session :=
  {| html := html s; css := css s; params := params s; paramsJson := paramsJson s;
     apiKey := v |}.

Definition json_parse_js (parse : string -> option jsval) (val : string) : M jsval :=
  match parse val with
  | Some v => ret v
  | None => throw (JsonSyntaxError "Unexpected token in JSON")
  end.

(** [onChange] of the data editor:
    [try { setParams(JSON.parse(val)); setParamsJson(val) }
     catch { console.warn('Error parsing JSON') }]. *)
Definition onDataChange (parse : string -> option jsval) (val : string) (s : session)
  : M session :=
  try_catch
    (p <-- json_parse_js parse val ;;
     ret {| html := html s; css := css s; params := p; paramsJson := val;
            apiKey := apiKey s |})
    (fun _ => console_warn (LStr "Error parsing JSON") ;;; ret s).

(* ------------------------------------------------------------------ *)
(** ** Local storage ([debouncedWriteStorage] and [useLocalStorage])

    Both come from @rehooks/local-storage, over [window.localStorage],
    which holds strings.  [writeStorage] also dispatches a change event
    that updates the values [useLocalStorage] returns; [App] reads those
    only as initial states, so the event has no further effect. *)

Abbreviation store := (gmap string string).

(** The text [writeStorage] stores for a value:
    [typeof value === 'object' ? JSON.stringify(value) : `${value}`]
    ([typeof null] is ['object']). *)
Definition storage_text (stringify : jsval -> string) (v : jsval) : string :=
  match v with
  | JNull | JArr _ | JObj _ => stringify v
  | JUndefined => "undefined"
  | JBool true => "true"
  | JBool false => "false"
  | JNum z => number_to_string z
  | JStr s => s
  end.

(** [writeStorage(key, value)]: [localStorage.setItem(key, text)], which
    throws a QuotaExceededError, rethrown, when the browser's storage
    refuses the new contents ([fits] is the browser's quota check). *)
Definition writeStorage (fits : store -> bool) (stringify : jsval -> string)
    (key : string) (v : jsval) (st : store) : exn + store :=
  let st' := <[key := storage_text stringify v]> st in
  if fits st' then inr st' else inl QuotaExceededError.

(** Writes done one after the other; a write that throws ends the
    sequence, the earlier writes staying done. *)
Fixpoint write_all (fits : store -> bool) (stringify : jsval -> string)
    (kvs : list (string * jsval)) (st : store) : store * option exn :=
  match kvs with
  | [] => (st, None)
  | (k, v) :: rest =>
      match writeStorage fits stringify k v st with
      | inl e => (st, Some e)
      | inr st' => write_all fits stringify rest st'
      end
  end.

(** The body of [debouncedWriteStorage] when it executes: the three
    writes in order; an error thrown ends the async function, whose
    promise rejects with it. *)
Definition write_snapshot (fits : store -> bool) (stringify : jsval -> string)
    (html css : string) (params : jsval) (st : store) : store * option exn :=
  write_all fits stringify [("html", JStr html); ("css", JStr css); ("params", params)] st.




Definition default_params : jsval := JObj [("title", JStr "Hello, World!")].




(* ------------------------------------------------------------------ *)
(** ** A session run

    The user actions of a session.  [StorageFlush] is an execution of
    [debouncedWriteStorage], which writes the arguments of its latest call,
    i.e. the current documents (see the debounce model below); nothing
    awaits the promise it returns, so a write that throws is an unhandled
    rejection. *)

Inductive action : Type :=
| EditHtml (v : string)
| EditCss (v : string)
| EditData (v : string)
| EditApiKey (v : string)
| ClickPublish
| StorageFlush.

Record config : Type := mk_config {
  cfg_session : session;
  cfg_store : store;
  cfg_loading : bool     (** the publish button's [loading] flag *)
}.

Definition step_action (parse : string -> option jsval) (net : request -> http_outcome)
    (stringify : jsval -> string) (fits : store -> bool)
    (a : action) (c : config) : M config :=
  let s := cfg_session c in
  match a with
  | EditHtml v => ret {| cfg_session := setHtml v s; cfg_store := cfg_store c; cfg_loading := cfg_loading c |}
  | EditCss v => ret {| cfg_session := setCss v s; cfg_store := cfg_store c; cfg_loading := cfg_loading c |}
  | EditData v =>
      s' <-- onDataChange parse v s ;;
      ret {| cfg_session := s'; cfg_store := cfg_store c; cfg_loading := cfg_loading c |}
  | EditApiKey v => ret {| cfg_session := setApiKey v s; cfg_store := cfg_store c; cfg_loading := cfg_loading c |}
  | ClickPublish =>
      fun log =>
        let '(loading', (_, log')) :=
          button_click (publish net (html s) (css s) (apiKey s)) (cfg_loading c) log in
        (inr {| cfg_session := s; cfg_store := cfg_store c; cfg_loading := loading' |}, log')
  | StorageFlush =>
      let '(st', err) := write_snapshot fits stringify (html s) (css s) (params s) (cfg_store c) in
      let c' := {| cfg_session := s; cfg_store := st'; cfg_loading := cfg_loading c |} in
      match err with
      | None => ret c'
      | Some e => emit (UnhandledRejection e) ;;; ret c'
      end
  end.

Fixpoint run_session (parse : string -> option jsval) (net : request -> http_outcome)
    (stringify : jsval -> string) (fits : store -> bool)
    (acts : list action) (c : config) : M config :=
  match acts with
  | [] => ret c
  | a :: rest =>
      c' <-- step_action parse net stringify fits a c ;;
      run_session parse net stringify fits rest c'
  end.

(* ------------------------------------------------------------------ *)
(** ** Runs that differ only in the API key *)

Definition erase_request (r : request) : request :=
  {| req_url := req_url r; req_body := req_body r; req_styles := req_styles r;
     req_content_type := req_content_type r; req_authorization := "" |}.

(** The [Authorization] header blanked in a request, in the config an
    axios error carries, and in what is logged. *)
Definition erase_exn (e : exn) : exn :=
  match e with
  | AxiosError r resp => AxiosError (erase_request r) resp
  | e => e
  end.

Definition erase_logval (v : logval) : logval :=
  match v with
  | LExn e => LExn (erase_exn e)
  | v => v
  end.

Definition erase_event (ev : event) : event :=
  match ev with
  | HttpPost r => HttpPost (erase_request r)
  | ConsoleWarn v => ConsoleWarn (erase_logval v)
  | ConsoleLog v => ConsoleLog (erase_logval v)
  | UnhandledRejection e => UnhandledRejection (erase_exn e)
  | e => e
  end.

(** Two action sequences equal up to the typed keys, which are related by
    [R]. *)
Inductive acts_agree (R : string -> string -> Prop) : list action -> list action -> Prop :=
| agree_nil : acts_agree R [] []
| agree_key (k1 k2 : string) (r1 r2 : list action) :
    R k1 k2 -> acts_agree R r1 r2 -> acts_agree R (EditApiKey k1 :: r1) (EditApiKey k2 :: r2)
| agree_same (a : action) (r1 r2 : list action) :
    acts_agree R r1 r2 -> acts_agree R (a :: r1) (a :: r2).

Definition config_agree (R : string -> string -> Prop) (c1 c2 : config) : Prop :=
  html (cfg_session c1) = html (cfg_session c2)
  /\ css (cfg_session c1) = css (cfg_session c2)
  /\ params (cfg_session c1) = params (cfg_session c2)
  /\ paramsJson (cfg_session c1) = paramsJson (cfg_session c2)
  /\ R (apiKey (cfg_session c1)) (apiKey (cfg_session c2))
  /\ cfg_store c1 = cfg_store c2
  /\ cfg_loading c1 = cfg_loading c2.

(** Keys related this way are both empty or both non-empty. *)
Definition same_emptiness (k1 k2 : string) : Prop := (k1 = "" <-> k2 = "").

(* ------------------------------------------------------------------ *)
(** ** lodash.debounce

    [debouncedWriteStorage] is [debounce(f, 1000, { maxWait: 5000 })] from
    the lodash.debounce package (4.0.8).  Its state is embedded as the
    closure's variables, with a virtual clock: [now()] is the time of the
    event being processed, and a [setTimeout(timerExpired, d)] issued at
    time [t] fires at [t + max 0 d].  Timers are never cleared: in the
    [maxing] branch a new timer is armed while the old one stays pending,
    as in the package. *)

Module Debounce.

Record options : Type := mk_options {
  wait : Z;
  leading : bool;
  maxing : bool;
  maxWait : Z;
  trailing : bool
}.

(** The option handling at the top of [debounce(func, wait, options)]
    for [options] holding at most a [maxWait] key. *)
Definition debounce_options (w : Z) (mw : option Z) : options :=
  {| wait := w; leading := false;
     maxing := match mw with Some _ => true | None => false end;
     maxWait := match mw with Some m => Z.max m w | None => 0 end;
     trailing := true |}.

(** The options of [debouncedWriteStorage]. *)
Definition persist_options : options := debounce_options 1000 (Some 5000).

(** The arguments [(html, css, params)] of [debouncedWriteStorage]. *)
Definition persist_args : Type := (string * string * jsval)%type.

Section Lodash.

Variable A : Type.
Variable o : options.

Record dstate : Type := mk_dstate {
  lastArgs : option A;
  lastCallTime : option Z;
  lastInvokeTime : Z;
  timerId : bool;                 (** [timerId !== undefined] *)
  timers : list Z;                (** deadlines of the pending timers *)
  invoked : list (Z * option A)   (** executions of [func], latest first *)
}.

Definition init : dstate :=
  {| lastArgs := None; lastCallTime := None; lastInvokeTime := 0; timerId := false;
     timers := []; invoked := [] |}.

Definition setTimeout (time d : Z) (st : dstate) : dstate :=
  {| lastArgs := lastArgs st; lastCallTime := lastCallTime st;
     lastInvokeTime := lastInvokeTime st; timerId := true;
     timers := timers st ++ [time + Z.max 0 d]; invoked := invoked st |}.

Definition invokeFunc (time : Z) (st : dstate) : dstate :=
  {| lastArgs := None; lastCallTime := lastCallTime st; lastInvokeTime := time;
     timerId := timerId st; timers := timers st;
     invoked := (time, lastArgs st) :: invoked st |}.

Definition leadingEdge (time : Z) (st : dstate) : dstate :=
  let st1 := {| lastArgs := lastArgs st; lastCallTime := lastCallTime st;
                lastInvokeTime := time; timerId := timerId st; timers := timers st;
                invoked := invoked st |} in
  let st2 := setTimeout time (wait o) st1 in
  if leading o then invokeFunc time st2 else st2.

Definition remainingWait (time : Z) (st : dstate) : Z :=
  let timeSinceLastCall := time - match lastCallTime st with Some t => t | None => 0 end in
  let timeSinceLastInvoke := time - lastInvokeTime st in
  let result := wait o - timeSinceLastCall in
  if maxing o then Z.min result (maxWait o - timeSinceLastInvoke) else result.

Definition shouldInvoke (time : Z) (st : dstate) : bool :=
  match lastCallTime st with
  | None => true
  | Some lct =>
      let timeSinceLastCall := time - lct in
      let timeSinceLastInvoke := time - lastInvokeTime st in
      (wait o <=? timeSinceLastCall) || (timeSinceLastCall <? 0)
      || (maxing o && (maxWait o <=? timeSinceLastInvoke))
  end.

Definition trailingEdge (time : Z) (st : dstate) : dstate :=
  let st1 := {| lastArgs := lastArgs st; lastCallTime := lastCallTime st;
                lastInvokeTime := lastInvokeTime st; timerId := false;
                timers := timers st; invoked := invoked st |} in
  if trailing o && match lastArgs st with Some _ => true | None => false end then
    invokeFunc time st1
  else
    {| lastArgs := None; lastCallTime := lastCallTime st1;
       lastInvokeTime := lastInvokeTime st1; timerId := false;
       timers := timers st1; invoked := invoked st1 |}.

Definition timerExpired (time : Z) (st : dstate) : dstate :=
  if shouldInvoke time st then trailingEdge time st
  else setTimeout time (remainingWait time st) st.

(** [debounced(args)] called at [time]. *)
Definition debounced (time : Z) (args : A) (st : dstate) : dstate :=
  let isInvoking := shouldInvoke time st in
  let st1 := {| lastArgs := Some args; lastCallTime := Some time;
                lastInvokeTime := lastInvokeTime st; timerId := timerId st;
                timers := timers st; invoked := invoked st |} in
  if isInvoking && negb (timerId st1) then leadingEdge time st1
  else if isInvoking && maxing o then invokeFunc time (setTimeout time (wait o) st1)
  else if negb (timerId st1) then setTimeout time (wait o) st1
  else st1.

(** The event loop: the earliest pending timer fires first (timers armed
    earlier first among equal deadlines), and before a call made at the
    same instant. *)
Fixpoint min_timer (l : list Z) : option Z :=
  match l with
  | [] => None
  | d :: r => match min_timer r with
              | Some m => Some (Z.min d m)
              | None => Some d
              end
  end.

Fixpoint remove_first (d : Z) (l : list Z) : list Z :=
  match l with
  | [] => []
  | x :: r => if Z.eqb x d then r else x :: remove_first d r
  end.

Definition fire (d : Z) (st : dstate) : dstate :=
  timerExpired d
    {| lastArgs := lastArgs st; lastCallTime := lastCallTime st;
       lastInvokeTime := lastInvokeTime st; timerId := timerId st;
       timers := remove_first d (timers st); invoked := invoked st |}.

Definition step (cfg : list (Z * A) * dstate) : option (list (Z * A) * dstate) :=
  let '(calls, st) := cfg in
  match calls, min_timer (timers st) with
  | [], None => None
  | [], Some d => Some ([], fire d st)
  | (t, a) :: cs, None => Some (cs, debounced t a st)
  | (t, a) :: cs, Some d =>
      if d <=? t then Some (calls, fire d st) else Some (cs, debounced t a st)
  end.

Fixpoint run (n : nat) (cfg : list (Z * A) * dstate) : list (Z * A) * dstate :=
  match n with
  | O => cfg
  | S m => match step cfg with
           | Some cfg' => run m cfg'
           | None => cfg
           end
  end.

End Lodash.

Arguments init {A}.
Arguments mk_dstate {A}.
Arguments lastArgs {A}.
Arguments lastCallTime {A}.
Arguments lastInvokeTime {A}.
Arguments timerId {A}.
Arguments timers {A}.
Arguments invoked {A}.
Arguments setTimeout {A}.
Arguments invokeFunc {A}.
Arguments leadingEdge {A}.
Arguments remainingWait {A}.
Arguments shouldInvoke {A}.
Arguments trailingEdge {A}.
Arguments timerExpired {A}.
Arguments fire {A}.
Arguments debounced {A}.
Arguments step {A}.
Arguments run {A}.

(** Call times that never go backwards. *)
Fixpoint times_sorted {A : Type} (l : list (Z * A)) : bool :=
  match l with
  | [] => true
  | (t, _) :: r =>
      match r with
      | [] => true
      | (t', _) :: _ => (t <=? t') && times_sorted r
      end
  end.

(** A quiescent instance at time [t]: no timer pending, and a call at [t]
    starts a new burst ([shouldInvoke] holds, as after a quiet period of
    [wait], or before the first call). *)
Definition idle {A : Type} (o : options) (t : Z) (st : dstate A) : bool :=
  negb (timerId st)
  && match timers st with [] => true | _ => false end
  && shouldInvoke o t st.

(** The state after the first call [t1] of a burst and later calls up to
    [lc], with [a] the arguments of the latest. *)
Definition pending {A : Type} (o : options) (t1 lc : Z) (a : A) (I : list (Z * option A))
  : dstate A :=
  mk_dstate (Some a) (Some lc) t1 true [t1 + wait o] I.

(** Between the first call [t0] of a burst (from [st0]) and the first
    execution: the [maxWait] clock still counts from [t0] and a timer is
    due by [t0 + maxWait]. *)
Definition before_first {A : Type} (o : options) (t0 : Z) (st0 st : dstate A) : Prop :=
  invoked st = invoked st0
  /\ lastInvokeTime st = t0
  /\ timerId st = true
  /\ lastArgs st <> None
  /\ Exists (fun d => d <= t0 + maxWait o) (timers st).

(** Some execution since the burst began, the first one by [t0 + maxWait]. *)
Definition executed_in_time {A : Type} (o : options) (t0 : Z) (st0 st : dstate A) : Prop :=
  exists new t oa, invoked st = new ++ (t, oa) :: invoked st0 /\ t <= t0 + maxWait o.

(** A call still to come after [t0 + maxWait]. *)
Definition late_call {A : Type} (o : options) (t0 : Z) (calls : list (Z * A)) : Prop :=
  exists t a, In (t, a) calls /\ t0 + maxWait o < t.

(** [lastCallTime], read as [0] before the first call. *)
Definition lastCallTime_or0 {A : Type} (st : dstate A) : Z :=
  match lastCallTime st with Some l => l | None => 0 end.

(** The consistency of the closure's variables that every call and every
    timer keeps: pending arguments have a timer armed, an armed timer is in
    the queue, and every queued timer is due by [wait] after the latest
    call. *)
Definition well_formed {A : Type} (o : options) (st : dstate A) : Prop :=
  (lastArgs st <> None -> timerId st = true)
  /\ (timerId st = true -> timers st <> [])
  /\ match lastCallTime st with
     | Some l => Forall (fun d => d <= l + wait o) (timers st)
     | None => timers st = []
     end.

(** Calls still to come in time order, none before the latest call made. *)
Definition calls_ahead {A : Type} (calls : list (Z * A)) (st : dstate A) : bool :=
  times_sorted calls
  && match calls, lastCallTime st with
     | (t, _) :: _, Some l => l <=? t
     | _, _ => true
     end.

(** The latest of the calls [calls] made after the latest call [ol]. *)
Definition latest {A : Type} (ol : option (Z * A)) (calls : list (Z * A)) : option (Z * A) :=
  fold_left (fun _ c => Some c) calls ol.

(** The latest call [(t, a)] is either still pending or the latest
    execution, made by [t + wait], carried its arguments. *)
Definition latest_served {A : Type} (o : options) (st : dstate A) (ol : option (Z * A)) : Prop :=
  match ol with
  | None => True
  | Some (t, a) =>
      lastCallTime st = Some t
      /\ (lastArgs st = Some a
          \/ (lastArgs st = None
              /\ exists t', hd_error (invoked st) = Some (t', Some a) /\ t' <= t + wait o))
  end.

(** Every execution so far received arguments. *)
Definition executions_have_args {A : Type} (st : dstate A) : Prop :=
  Forall (fun e : Z * option A => snd e <> None) (invoked st).

(** Calls in time order, each less than [w] after the one before:
    continuous typing for a debounce of [wait] [w]. *)
Fixpoint continuous {A : Type} (w : Z) (l : list (Z * A)) : bool :=
  match l with
  | (t, _) :: (((t', _) :: _) as r) => (t <=? t') && (t' <? t + w) && continuous w r
  | _ => true
  end.

(** Times, latest first, each at most [m] after the one before it. *)
Fixpoint spaced (m : Z) (l : list Z) : bool :=
  match l with
  | x :: ((y :: _) as r) => (y <=? x) && (x <=? y + m) && spaced m r
  | _ => true
  end.

(** A burst begun at [t0] on [st0], with the calls [done] made and [cs]
    still to come: the executions [new] since [t0] came at most [maxWait]
    apart, with arguments, the latest one, or [t0], being
    [lastInvokeTime]; every timer is due within [maxWait] of it; the
    next call comes within [wait] of the latest; and every call made
    came within [maxWait] of [lastInvokeTime]. *)
Definition burst_inv {A : Type} (o : options) (t0 : Z) (st0 : dstate A)
    (done cs : list (Z * A)) (st : dstate A) : Prop :=
  exists (new : list (Z * option A)) (lct : Z),
    invoked st = new ++ invoked st0
    /\ spaced (maxWait o) (map fst new ++ [t0]) = true
    /\ Forall (fun e : Z * option A => snd e <> None) new
    /\ lastInvokeTime st = hd t0 (map fst new)
    /\ lastCallTime st = Some lct
    /\ (lastArgs st <> None -> timerId st = true)
    /\ (lastArgs st = None -> lct <= lastInvokeTime st)
    /\ (timerId st = true -> timers st <> [])
    /\ Forall (fun d => lastInvokeTime st <= d <= lastInvokeTime st + maxWait o /\ lct <= d)
         (timers st)
    /\ match cs with
       | (t, _) :: _ => lastInvokeTime st <= t /\ lct <= t /\ t < lct + wait o
       | [] => True
       end
    /\ continuous (wait o) cs = true
    /\ Forall (fun c => fst c <= lastInvokeTime st + maxWait o) done.

End Debounce.

(** Local storage after the executions [ex] of [debouncedWriteStorage]
    (latest first) ran, oldest first, on [st].  An execution without
    arguments would write [undefined] to the three keys.  A failed write
    leaves the store as the writes before it made it. *)
Fixpoint storage_after (fits : store -> bool) (stringify : jsval -> string)
    (ex : list (Z * option Debounce.persist_args)) (st : store) : store :=
  match ex with
  | [] => st
  | (_, Some (h, c, p)) :: rest => fst (write_snapshot fits stringify h c p (storage_after fits stringify rest st))
  | (_, None) :: rest =>
      fst (write_all fits stringify [("html", JUndefined); ("css", JUndefined); ("params", JUndefined)]
             (storage_after fits stringify rest st))
  end.

(* ================================================================== *)
(** * Properties *)

(** ** Helper lemmas *)

Lemma js_truthy_str (s : string) : js_truthy (JStr s) = negb (String.eqb s "").
Proof. reflexivity. Qed.

Lemma nonempty_truthy (s : string) : s <> "" -> js_truthy (JStr s) = true.
Proof.
  intros H. rewrite js_truthy_str.
  destruct (String.eqb s "") eqn:E; [apply String.eqb_eq in E; contradiction | reflexivity].
Qed.

(** Every run of [publish] completes normally and only appends to the
    log. *)
Lemma publish_log (net : request -> http_outcome) (h c k : string) (log : list event) :
  publish net h c k log = (inr tt, log ++ snd (publish net h c k [])).
Proof.
  unfold publish, try_catch, bind, axios_post, get_prop, alert, console_log, emit,
    ret, throw, lift.
  destruct (negb (js_truthy (JStr k))); [reflexivity |].
  destruct (net (publish_request h c k)) as [status data|];
    [destruct ((200 <=? status) && (status <? 300)); [destruct data |] |];
    simpl; try (destruct (js_to_string (field_or_undefined _ "template")));
    simpl; rewrite <- ?app_assoc; reflexivity.
Qed.

Lemma onDataChange_eq (parse : string -> option jsval) (v : string) (s : session)
    (log : list event) :
  onDataChange parse v s log =
  match parse v with
  | Some p => (inr {| html := html s; css := css s; params := p; paramsJson := v;
                      apiKey := apiKey s |}, log)
  | None => (inr s, log ++ [ConsoleWarn (LStr "Error parsing JSON")])
  end.
Proof.
  unfold onDataChange, try_catch, bind, json_parse_js.
  destruct (parse v); reflexivity.
Qed.

(** Writes leave every other key as it was. *)
Lemma write_all_other (fits : store -> bool) (stringify : jsval -> string)
    (kvs : list (string * jsval)) (st : store) (key : string) :
  ~ In key (map fst kvs) -> fst (write_all fits stringify kvs st) !! key = st !! key.
Proof.
  revert st. induction kvs as [| [k v] rest IH]; intros st Hn; [reflexivity |].
  cbn [write_all]. unfold writeStorage.
  destruct (fits _); [| reflexivity].
  rewrite IH by (intros Hi; apply Hn; right; exact Hi).
  apply lookup_insert_ne. intros ->. apply Hn. left. reflexivity.
Qed.

(** ** C1 *)

(** C1 (as stated, refuted): after the template ["OK"] has compiled to
    ["OK"], a debounced template ["{{#if"] that fails to compile does not
    leave ["OK"] on display: the preview shows the raw text ["{{#if"]. *)
Lemma preview_last_good_counterexample :
  fst (preview_init hb_compile "OK" (JObj []) []) = inr "OK"%string
  /\ fst (preview_effect hb_compile "{{#if" (JObj []) "OK" []) = inr "{{#if"%string
  /\ "{{#if"%string <> "OK"%string.
Proof. split; [reflexivity | split; [reflexivity | discriminate]]. Qed.

(** C1 (amended): the preview effect never throws.  When compiling or
    evaluating the debounced template fails, the new compiled output is
    the raw debounced template text, whatever was displayed before, and
    the warning and the error are logged; otherwise it is the compiled
    text. *)
Theorem preview_effect_fallback (compile : string -> jsval -> exn + string)
    (debouncedHtml : string) (debouncedParams : jsval) (compiledHtml : string)
    (log : list event) :
  preview_effect compile debouncedHtml debouncedParams compiledHtml log =
  match compile debouncedHtml debouncedParams with
  | inl e => (inr debouncedHtml,
              log ++ [ConsoleWarn (LStr compile_warning); ConsoleWarn (LExn e)])
  | inr out => (inr out, log)
  end.
Proof.
  unfold preview_effect, try_catch, bind, lift, console_warn, emit, ret, throw.
  destruct (compile debouncedHtml debouncedParams); simpl.
  - rewrite <- app_assoc. reflexivity.
  - reflexivity.
Qed.

(** ** C2 *)

(** C2 (as stated, refuted): typing the text ["{"], which is not JSON,
    into the data editor leaves [paramsJson] at its previous text ["{}"]. *)
Lemma data_document_counterexample :
  let s0 := mk_session "h" "c" (JObj []) "{}" "" in
  onDataChange json_parse "{" s0 [] = (inr s0, [ConsoleWarn (LStr "Error parsing JSON")])
  /\ paramsJson s0 <> "{"%string.
Proof. split; [reflexivity | discriminate]. Qed.

(** C2 (amended): an edit of the markup or of the stylesheet sets that
    document to exactly the typed text; an edit of the data document sets
    its text (and the data object) to the typed text when the text parses
    as JSON, and otherwise leaves the session unchanged and only logs a
    warning. *)
Theorem edits_update_documents (parse : string -> option jsval) (v : string)
    (s : session) (log : list event) :
  html (setHtml v s) = v
  /\ css (setCss v s) = v
  /\ onDataChange parse v s log =
     match parse v with
     | Some p => (inr {| html := html s; css := css s; params := p; paramsJson := v;
                         apiKey := apiKey s |}, log)
     | None => (inr s, log ++ [ConsoleWarn (LStr "Error parsing JSON")])
     end.
Proof. split; [reflexivity | split; [reflexivity | apply onDataChange_eq]]. Qed.

(** ** C3 *)

(** C3: with an empty API key, [publish] alerts the missing-key message,
    completes normally and issues no request. *)
Theorem publish_empty_key (net : request -> http_outcome) (h c : string)
    (log : list event) :
  publish net h c "" log = (inr tt, log ++ [Alert missing_key_msg]).
Proof. reflexivity. Qed.

(** ** C6 *)

(** C6: when the edited data text does not parse, the session (its data
    object among it) is unchanged, the only effect is a console warning,
    nothing is alerted and the handler completes normally. *)
Theorem data_parse_failure_retains (parse : string -> option jsval) (v : string)
    (s : session) (log : list event) :
  parse v = None ->
  onDataChange parse v s log = (inr s, log ++ [ConsoleWarn (LStr "Error parsing JSON")]).
Proof. intros H. rewrite onDataChange_eq, H. reflexivity. Qed.

Lemma data_parse_failure_retains_witness :
  json_parse "{" = None
  /\ onDataChange json_parse "{" (mk_session "h" "c" default_params "{}" "") [] =
     (inr (mk_session "h" "c" default_params "{}" ""),
      [] ++ [ConsoleWarn (LStr "Error parsing JSON")]).
Proof.
  split; [reflexivity |].
  apply (data_parse_failure_retains json_parse "{" (mk_session "h" "c" default_params "{}" "") []).
  reflexivity.
Defined.

(** ** C7 *)




(** ** C8 *)

(** C8: with a non-empty key, [publish] issues exactly one request.  On a
    2xx response with an object body it alerts the success message with
    the body's [template] field converted to a string; on a non-2xx
    response or a network failure it alerts the fixed failure message,
    logs the raw axios error (the request config and the response, if
    any) to the console and alerts no template id.  The one way a 2xx
    object body fails is a [template] whose string conversion throws (an
    object with its own [toString]): then the fixed failure message is
    alerted and the TypeError logged. *)
Theorem publish_nonempty_key (net : request -> http_outcome) (h c k : string)
    (log : list event) :
  k <> "" ->
  let req := publish_request h c k in
  (forall (status : Z) fs, net req = HttpResponse status (JObj fs) -> 200 <= status < 300 ->
     (forall id, js_to_string (field_or_undefined fs "template") = inr id ->
        publish net h c k log = (inr tt, log ++ [HttpPost req; Alert (publish_ok_msg id)]))
     /\ (forall e, js_to_string (field_or_undefined fs "template") = inl e ->
        publish net h c k log =
          (inr tt, log ++ [HttpPost req; Alert publish_fail_msg; ConsoleLog (LExn e)])))
  /\ (forall (status : Z) data, net req = HttpResponse status data -> ~ (200 <= status < 300) ->
     publish net h c k log =
       (inr tt, log ++ [HttpPost req; Alert publish_fail_msg;
                        ConsoleLog (LExn (AxiosError req (Some (status, data))))]))
  /\ (net req = NetworkFailure ->
     publish net h c k log =
       (inr tt, log ++ [HttpPost req; Alert publish_fail_msg;
                        ConsoleLog (LExn (AxiosError req None))])).
Proof.
  intros Hk req.
  assert (Ht : negb (js_truthy (JStr k)) = false) by (rewrite nonempty_truthy; auto).
  unfold publish, try_catch, bind, axios_post, get_prop, alert, console_log, emit,
    ret, throw, lift.
  rewrite Ht. fold req.
  split; [| split].
  - intros status fs Hn Hs. rewrite Hn.
    replace ((200 <=? status) && (status <? 300)) with true by lia.
    split.
    + intros id Hid. simpl. rewrite Hid. simpl. rewrite <- !app_assoc. reflexivity.
    + intros e He. simpl. rewrite He. simpl. rewrite <- !app_assoc. reflexivity.
  - intros status data Hn Hs. rewrite Hn.
    replace ((200 <=? status) && (status <? 300)) with false by lia.
    simpl. rewrite <- !app_assoc. reflexivity.
  - intros Hn. rewrite Hn. simpl. rewrite <- !app_assoc. reflexivity.
Qed.

Lemma publish_nonempty_key_witness :
  "k"%string <> ""%string
  /\ publish (fun _ => HttpResponse 401 JNull) "h" "c" "k" [] =
     (inr tt, [] ++ [HttpPost (publish_request "h" "c" "k"); Alert publish_fail_msg;
                     ConsoleLog (LExn (AxiosError (publish_request "h" "c" "k") (Some (401, JNull))))])
  /\ publish (fun _ => HttpResponse 200 (JObj [("template", JNum (2 ^ 60))])) "h" "c" "k" [] =
     (inr tt, [] ++ [HttpPost (publish_request "h" "c" "k");
                     Alert (publish_ok_msg "1152921504606847000")]).
Proof.
  split; [discriminate |]. split.
  - destruct (publish_nonempty_key (fun _ => HttpResponse 401 JNull) "h" "c" "k" []
                ltac:(discriminate)) as [_ [H _]].
    apply (H 401 JNull); [reflexivity | lia].
  - destruct (publish_nonempty_key (fun _ => HttpResponse 200 (JObj [("template", JNum (2 ^ 60))]))
                "h" "c" "k" [] ltac:(discriminate)) as [H _].
    apply (proj1 (H 200 [("template", JNum (2 ^ 60))] eq_refl ltac:(lia))).
    vm_compute. reflexivity.
Defined.

(** ** C10 *)

(** C10: [publish] never throws, whatever the key, documents and network
    outcome; hence a click on the idle publish button ends with [loading]
    cleared, the button enabled again. *)
Theorem publish_button_completes (net : request -> http_outcome) (h c k : string)
    (log : list event) :
  exists log',
    publish net h c k log = (inr tt, log')
    /\ button_click (publish net h c k) false log = (false, (inr tt, log')).
Proof.
  exists (log ++ snd (publish net h c k [])).
  rewrite publish_log. split; [reflexivity |].
  unfold button_click. rewrite publish_log. reflexivity.
Qed.

(** ** C9 *)

(** With network answers that ignore the [Authorization] header, the
    effects of [publish] depend on the key only through its being empty,
    once the header is blanked. *)
Lemma publish_erase (net : request -> http_outcome) (h c k1 k2 : string) :
  same_emptiness k1 k2 ->
  (forall r, net r = net (erase_request r)) ->
  map erase_event (snd (publish net h c k1 [])) = map erase_event (snd (publish net h c k2 [])).
Proof.
  intros [H12 H21] Hn.
  destruct (String.eqb k1 "") eqn:E1.
  - apply String.eqb_eq in E1. subst k1. rewrite (H12 eq_refl). reflexivity.
  - apply String.eqb_neq in E1.
    assert (E2 : k2 <> "") by (intros E; apply E1, H21, E).
    assert (N1 : net (publish_request h c k1) = net (publish_request h c "")) by apply Hn.
    assert (N2 : net (publish_request h c k2) = net (publish_request h c "")) by apply Hn.
    unfold publish, try_catch, bind, axios_post, get_prop, alert, console_log, emit,
      ret, throw, lift.
    rewrite (nonempty_truthy k1 E1), (nonempty_truthy k2 E2), N1, N2. simpl.
    destruct (net (publish_request h c "")) as [status data|];
      [destruct ((200 <=? status) && (status <? 300)); [destruct data |] |];
      simpl; try (destruct (js_to_string (field_or_undefined _ "template")));
      reflexivity.
Qed.

Lemma step_agree (R : string -> string -> Prop) (parse : string -> option jsval) (stringify : jsval -> string)
    (fits : store -> bool)
    (net1 net2 : request -> http_outcome) (a1 a2 : action) (c1 c2 : config)
    (log1 log2 : list event) :
  (forall k, R k k) ->
  (a1 = a2 \/ exists k1 k2, a1 = EditApiKey k1 /\ a2 = EditApiKey k2 /\ R k1 k2) ->
  config_agree R c1 c2 ->
  exists c1' c2' l1 l2,
    step_action parse net1 stringify fits a1 c1 log1 = (inr c1', l1)
    /\ step_action parse net2 stringify fits a2 c2 log2 = (inr c2', l2)
    /\ config_agree R c1' c2'
    /\ ((forall r, net1 r = net1 (erase_request r)) -> net1 = net2 ->
        (forall k1 k2, R k1 k2 -> same_emptiness k1 k2) ->
        map erase_event log1 = map erase_event log2 ->
        map erase_event l1 = map erase_event l2).
Proof.
  intros Hrefl Ha Hc.
  destruct c1 as [[h1 c1 p1 j1 k1] st1 ld1], c2 as [[h2 c2 p2 j2 k2] st2 ld2].
  unfold config_agree in Hc; simpl in Hc.
  destruct Hc as (-> & -> & -> & -> & Hk & -> & ->).
  destruct Ha as [<- | (k1' & k2' & -> & -> & Hk')].
  - destruct a1 as [v|v|v|v| |]; unfold step_action; simpl.
    + do 4 eexists; split; [reflexivity | split; [reflexivity |]].
      split; [repeat split; auto | auto].
    + do 4 eexists; split; [reflexivity | split; [reflexivity |]].
      split; [repeat split; auto | auto].
    + unfold bind. rewrite !onDataChange_eq. destruct (parse v) as [p|].
      * do 4 eexists; split; [reflexivity | split; [reflexivity |]].
        split; [repeat split; auto | auto].
      * do 4 eexists; split; [reflexivity | split; [reflexivity |]].
        split; [repeat split; auto |].
        intros _ _ _ E. rewrite !map_app, E. reflexivity.
    + do 4 eexists; split; [reflexivity | split; [reflexivity |]].
      split; [repeat split; auto | auto].
    + unfold button_click. destruct ld2.
      * do 4 eexists; split; [reflexivity | split; [reflexivity |]].
        split; [repeat split; auto | auto].
      * rewrite (publish_log net1 h2 c2 k1 log1), (publish_log net2 h2 c2 k2 log2).
        do 4 eexists; split; [reflexivity | split; [reflexivity |]].
        split; [repeat split; auto |].
        intros Hn <- HR E. rewrite !map_app, E.
        rewrite (publish_erase net1 h2 c2 k1 k2 (HR _ _ Hk) Hn). reflexivity.
    + destruct (write_snapshot fits stringify h2 c2 p2 st2) as [st' [e|]];
        unfold emit, bind, ret;
        (do 4 eexists; split; [reflexivity | split; [reflexivity |]]);
        (split; [repeat split; auto |]);
        [intros _ _ _ E; rewrite !map_app, E; reflexivity | auto].
  - unfold step_action; simpl.
    do 4 eexists; split; [reflexivity | split; [reflexivity |]].
    split; [repeat split; auto | auto].
Qed.

Lemma run_agree (R : string -> string -> Prop) (parse : string -> option jsval) (stringify : jsval -> string)
    (fits : store -> bool)
    (net1 net2 : request -> http_outcome) (acts1 acts2 : list action) :
  (forall k, R k k) ->
  acts_agree R acts1 acts2 ->
  forall (c1 c2 : config) (log1 log2 : list event),
  config_agree R c1 c2 ->
  exists c1' c2' l1 l2,
    run_session parse net1 stringify fits acts1 c1 log1 = (inr c1', l1)
    /\ run_session parse net2 stringify fits acts2 c2 log2 = (inr c2', l2)
    /\ config_agree R c1' c2'
    /\ ((forall r, net1 r = net1 (erase_request r)) -> net1 = net2 ->
        (forall k1 k2, R k1 k2 -> same_emptiness k1 k2) ->
        map erase_event log1 = map erase_event log2 ->
        map erase_event l1 = map erase_event l2).
Proof.
  intros Hrefl.
  induction 1 as [| k1 k2 r1 r2 Hk Hr IH | a r1 r2 Hr IH]; intros c1 c2 log1 log2 Hc.
  - exists c1, c2, log1, log2. simpl. auto.
  - destruct (step_agree R parse stringify fits net1 net2 (EditApiKey k1) (EditApiKey k2) c1 c2 log1 log2)
      as (c1' & c2' & l1 & l2 & E1 & E2 & Hc' & HL); [exact Hrefl | right; eauto | exact Hc |].
    destruct (IH c1' c2' l1 l2 Hc') as (c1'' & c2'' & l1' & l2' & F1 & F2 & Hc'' & HL').
    exists c1'', c2'', l1', l2'. cbn [run_session]. unfold bind. rewrite E1, E2.
    split; [exact F1 | split; [exact F2 | split; [exact Hc'' |]]].
    intros Hn Heq HR E. apply HL'; auto.
  - destruct (step_agree R parse stringify fits net1 net2 a a c1 c2 log1 log2)
      as (c1' & c2' & l1 & l2 & E1 & E2 & Hc' & HL); [exact Hrefl | left; reflexivity | exact Hc |].
    destruct (IH c1' c2' l1 l2 Hc') as (c1'' & c2'' & l1' & l2' & F1 & F2 & Hc'' & HL').
    exists c1'', c2'', l1', l2'. cbn [run_session]. unfold bind. rewrite E1, E2.
    split; [exact F1 | split; [exact F2 | split; [exact Hc'' |]]].
    intros Hn Heq HR E. apply HL'; auto.
Qed.

Lemma step_store (parse : string -> option jsval) (stringify : jsval -> string)
    (fits : store -> bool) (net : request -> http_outcome)
    (a : action) (c : config) (log : list event) :
  exists c' l,
    step_action parse net stringify fits a c log = (inr c', l)
    /\ forall key : string, key <> "html" -> key <> "css" -> key <> "params" ->
       cfg_store c' !! key = cfg_store c !! key.
Proof.
  destruct (step_agree eq parse stringify fits net net a a c c log log)
    as (c' & _ & l & _ & E & _ & _ & _);
    [reflexivity | left; reflexivity | repeat split; reflexivity |].
  exists c', l. split; [exact E |].
  intros key H1 H2 H3.
  destruct a as [v|v|v|v| |]; unfold step_action in E; cbn -[write_snapshot] in E.
  - injection E as <- _. reflexivity.
  - injection E as <- _. reflexivity.
  - unfold bind in E. rewrite onDataChange_eq in E.
    destruct (parse v); injection E as <- _; reflexivity.
  - injection E as <- _. reflexivity.
  - destruct (button_click _ _ _) as [ld [r l']]. injection E as <- _. reflexivity.
  - pose proof (write_all_other fits stringify
                  [("html", JStr (html (cfg_session c))); ("css", JStr (css (cfg_session c)));
                   ("params", params (cfg_session c))] (cfg_store c) key) as Hw.
    unfold write_snapshot in E.
    destruct (write_all _ _ _ _) as [st' err]. cbn [fst] in Hw.
    destruct err; unfold emit, bind, ret in E; injection E as <- _; cbn;
      apply Hw; intros [<- | [<- | [<- | []]]]; auto.
Qed.

Lemma run_store (parse : string -> option jsval) (stringify : jsval -> string)
    (fits : store -> bool) (net : request -> http_outcome)
    (acts : list action) :
  forall (c : config) (log : list event),
  exists c' l,
    run_session parse net stringify fits acts c log = (inr c', l)
    /\ forall key : string, key <> "html" -> key <> "css" -> key <> "params" ->
       cfg_store c' !! key = cfg_store c !! key.
Proof.
  induction acts as [| a rest IH]; intros c log.
  - exists c, log. split; [reflexivity | auto].
  - destruct (step_store parse stringify fits net a c log) as (c1 & l1 & E1 & K1).
    destruct (IH c1 l1) as (c2 & l2 & E2 & K2).
    exists c2, l2. cbn [run_session]. unfold bind. rewrite E1.
    split; [exact E2 |]. intros key H1 H2 H3. rewrite K2, K1; auto.
Qed.

(** C9 (as stated, refuted): the key is logged.  A publish refused with
    HTTP 401 makes [console.log(e)] print the axios error, whose request
    config carries the [Authorization] header, i.e. the key. *)
Lemma credential_logged_counterexample :
  snd (run_session json_parse (fun _ => HttpResponse 401 JNull) json_stringify (fun _ => true)
         [EditApiKey "secret"; ClickPublish]
         (mk_config (mk_session "h" "c" default_params "{}" "") ∅ false) [])
  = [HttpPost (publish_request "h" "c" "secret"); Alert publish_fail_msg;
     ConsoleLog (LExn (AxiosError (publish_request "h" "c" "secret") (Some (401, JNull))))]
  /\ req_authorization (publish_request "h" "c" "secret") = "secret"%string.
Proof. split; vm_compute; reflexivity. Qed.

(** C9 (what holds): the key is never persisted, and reaches the outputs
    only as the [Authorization] header.  (1) Two runs whose actions and
    starting states differ only in the keys end with the same local
    storage, whatever the network does; (2) a run writes local storage
    only under the keys [html], [css] and [params]; (3) when the network's
    answers do not depend on the [Authorization] header and the keys of
    the two runs are empty at the same points, the two runs emit the same
    alerts, console output, rejections and requests once that header is
    blanked, in the requests sent and in the request configs of the
    logged axios errors. *)
Theorem credential_only_in_memory :
  (forall (parse : string -> option jsval) (stringify : jsval -> string)
    (fits : store -> bool) (net1 net2 : request -> http_outcome)
          (acts1 acts2 : list action) (c1 c2 : config) (log1 log2 : list event),
     acts_agree (fun _ _ => True) acts1 acts2 ->
     config_agree (fun _ _ => True) c1 c2 ->
     exists c1' c2' l1 l2,
       run_session parse net1 stringify fits acts1 c1 log1 = (inr c1', l1)
       /\ run_session parse net2 stringify fits acts2 c2 log2 = (inr c2', l2)
       /\ cfg_store c1' = cfg_store c2')
  /\ (forall (parse : string -> option jsval) (stringify : jsval -> string)
    (fits : store -> bool) (net : request -> http_outcome)
             (acts : list action) (c : config) (log : list event),
     exists c' l,
       run_session parse net stringify fits acts c log = (inr c', l)
       /\ forall key : string, key <> "html" -> key <> "css" -> key <> "params" ->
          cfg_store c' !! key = cfg_store c !! key)
  /\ (forall (parse : string -> option jsval) (stringify : jsval -> string)
    (fits : store -> bool) (net : request -> http_outcome)
             (acts1 acts2 : list action) (c1 c2 : config) (log1 log2 : list event),
     (forall r, net r = net (erase_request r)) ->
     acts_agree same_emptiness acts1 acts2 ->
     config_agree same_emptiness c1 c2 ->
     map erase_event log1 = map erase_event log2 ->
     exists c1' c2' l1 l2,
       run_session parse net stringify fits acts1 c1 log1 = (inr c1', l1)
       /\ run_session parse net stringify fits acts2 c2 log2 = (inr c2', l2)
       /\ map erase_event l1 = map erase_event l2).
Proof.
  split; [| split].
  - intros parse stringify fits net1 net2 acts1 acts2 c1 c2 log1 log2 Ha Hc.
    destruct (run_agree _ parse stringify fits net1 net2 acts1 acts2 (fun _ => I) Ha c1 c2 log1 log2 Hc)
      as (c1' & c2' & l1 & l2 & E1 & E2 & Hc' & _).
    exists c1', c2', l1, l2. split; [exact E1 | split; [exact E2 |]].
    apply Hc'.
  - intros parse stringify fits net acts c log. apply run_store.
  - intros parse stringify fits net acts1 acts2 c1 c2 log1 log2 Hn Ha Hc E.
    assert (Hrefl : forall k, same_emptiness k k) by (intros k; split; auto).
    destruct (run_agree _ parse stringify fits net net acts1 acts2 Hrefl Ha c1 c2 log1 log2 Hc)
      as (c1' & c2' & l1 & l2 & E1 & E2 & _ & HL).
    exists c1', c2', l1, l2. split; [exact E1 | split; [exact E2 |]].
    apply HL; auto.
Qed.

(** ** The debounce of local storage (C4, C5) *)

Module DebounceFacts.
Import Debounce.

Ltac zbool :=
  repeat match goal with
  | |- context [?x <=? ?y] =>
      first [ replace (x <=? y) with true by lia | replace (x <=? y) with false by lia ]
  | |- context [?x <? ?y] =>
      first [ replace (x <? y) with true by lia | replace (x <? y) with false by lia ]
  end.

Lemma run_add {A : Type} (o : options) (n m : nat) (cfg : list (Z * A) * dstate A) :
  run o (n + m) cfg = run o m (run o n cfg).
Proof.
  revert cfg. induction n as [| n IH]; intros cfg; [reflexivity |].
  cbn [Nat.add run]. destruct (step o cfg) as [cfg'|] eqn:E; [apply IH |].
  destruct m; cbn [run]; [reflexivity | rewrite E; reflexivity].
Qed.

Lemma last_default {B : Type} (y : B) (r : list B) (d d' : B) :
  List.last (y :: r) d = List.last (y :: r) d'.
Proof.
  revert y. induction r as [| z r IH]; intros y; [reflexivity |].
  change (List.last (z :: r) d = List.last (z :: r) d'). apply IH.
Qed.

Section Burst.

Variable A : Type.
Variable o : options.
Hypothesis Hlead : leading o = false.
Hypothesis Hmax : maxing o = true.
Hypothesis Htrail : trailing o = true.
Hypothesis Hw : 0 < wait o.

Lemma burst_start (t1 : Z) (a1 : A) (rest : list (Z * A)) (st0 : dstate A) :
  idle o t1 st0 = true ->
  step o ((t1, a1) :: rest, st0) = Some (rest, pending o t1 t1 a1 (invoked st0)).
Proof.
  destruct st0 as [la lct lit tid tms inv]; unfold idle; cbn.
  destruct tid; [discriminate |]. destruct tms; [| discriminate].
  cbn. intros Hs. unfold debounced; cbn [timerId]. rewrite Hs. unfold leadingEdge. rewrite Hlead.
  unfold pending, setTimeout. cbn.
  replace (Z.max 0 (wait o)) with (wait o) by lia. reflexivity.
Qed.

Section Window.

Hypothesis H2w : 2 * wait o <= maxWait o.

Lemma burst_calls (t1 : Z) (I : list (Z * option A)) (rest : list (Z * A)) :
  forall (lc : Z) (a : A),
  t1 <= lc ->
  times_sorted ((lc, a) :: rest) = true ->
  Forall (fun c => fst c < t1 + wait o) rest ->
  run o (length rest) (rest, pending o t1 lc a I)
  = ([], pending o t1 (fst (List.last ((lc, a) :: rest) (lc, a)))
                    (snd (List.last ((lc, a) :: rest) (lc, a))) I).
Proof.
  induction rest as [| [t b] r IH]; intros lc a Hlc Hs Hf; [reflexivity |].
  cbn [times_sorted] in Hs. apply andb_prop in Hs as [Hle Hs].
  apply Z.leb_le in Hle. inversion Hf as [| ? ? Ht Hr]; subst. cbn [fst] in Ht.
  cbn [length run step pending timers min_timer].
  replace (t1 + wait o <=? t) with false by lia.
  assert (E : debounced o t b (pending o t1 lc a I) = pending o t1 t b I).
  { unfold debounced, shouldInvoke, pending; cbn. rewrite Hmax. zbool. reflexivity. }
  rewrite E. rewrite (IH t b); [| lia | exact Hs | exact Hr].
  change (List.last ((lc, a) :: (t, b) :: r) (lc, a)) with (List.last ((t, b) :: r) (lc, a)).
  rewrite (last_default (t, b) r (lc, a) (t, b)). reflexivity.
Qed.

(** The end of the burst: the timers fire and [func] runs once, at
    [tN + wait], with the latest arguments. *)
Lemma burst_end (t1 tN : Z) (aN : A) (I : list (Z * option A)) :
  t1 <= tN < t1 + wait o ->
  exists st',
    run o 2 ([], pending o t1 tN aN I) = ([], st')
    /\ timers st' = [] /\ invoked st' = (tN + wait o, Some aN) :: I.
Proof.
  intros Ht.
  destruct (Z.eq_dec tN t1) as [-> | Hne].
  - assert (F : fire o (t1 + wait o) (pending o t1 t1 aN I)
                = mk_dstate None (Some t1) (t1 + wait o) false [] ((t1 + wait o, Some aN) :: I)).
    { unfold fire, pending, timerExpired, shouldInvoke, trailingEdge, invokeFunc; cbn.
      rewrite Z.eqb_refl, Hmax, Htrail. zbool. reflexivity. }
    eexists; split; [cbn [run step pending timers min_timer]; rewrite F; reflexivity |].
    split; reflexivity.
  - assert (F1 : fire o (t1 + wait o) (pending o t1 tN aN I)
                 = mk_dstate (Some aN) (Some tN) t1 true [tN + wait o] I).
    { unfold fire, pending, timerExpired, shouldInvoke, remainingWait, setTimeout; cbn.
      rewrite Z.eqb_refl, Hmax. zbool. cbn.
      replace (Z.min (wait o - (t1 + wait o - tN)) (maxWait o - (t1 + wait o - t1)))
        with (tN - t1) by lia.
      replace (t1 + wait o + Z.max 0 (tN - t1)) with (tN + wait o) by lia.
      reflexivity. }
    assert (F2 : fire o (tN + wait o) (mk_dstate (Some aN) (Some tN) t1 true [tN + wait o] I)
                 = mk_dstate None (Some tN) (tN + wait o) false [] ((tN + wait o, Some aN) :: I)).
    { unfold fire, timerExpired, shouldInvoke, trailingEdge, invokeFunc; cbn.
      rewrite Z.eqb_refl, Hmax, Htrail. zbool. reflexivity. }
    eexists; split.
    + cbn [run step pending timers min_timer]. rewrite F1.
      cbn [run step timers min_timer]. rewrite F2. reflexivity.
    + split; reflexivity.
Qed.

Lemma last_in {B : Type} (x : B) (r : list B) (d : B) : In (List.last (x :: r) d) (x :: r).
Proof.
  revert x. induction r as [| y r IH]; intros x; [left; reflexivity |].
  change (In (List.last (y :: r) d) (x :: y :: r)). right. apply IH.
Qed.

Lemma sorted_head_le (t : Z) (a : A) (r : list (Z * A)) :
  times_sorted ((t, a) :: r) = true -> Forall (fun c => t <= fst c) r.
Proof.
  revert t a. induction r as [| [t' b] r IH]; intros t a H; [constructor |].
  cbn [times_sorted] in H. apply andb_prop in H as [H1 H2]. apply Z.leb_le in H1.
  constructor; [exact H1 |].
  eapply Forall_impl; [exact (IH t' b H2) |]. intros [x y] Hx. cbn in *. lia.
Qed.

(** A burst of calls from a quiescent instance, all within [wait] of the
    first, ends with exactly one execution, at [wait] after the last call
    and with its arguments; then nothing is pending. *)
Lemma burst_once (t1 : Z) (a1 : A) (rest : list (Z * A)) (st0 : dstate A) :
  idle o t1 st0 = true ->
  times_sorted ((t1, a1) :: rest) = true ->
  Forall (fun c => fst c < t1 + wait o) rest ->
  exists st',
    run o (length rest + 3) ((t1, a1) :: rest, st0) = ([], st')
    /\ timers st' = []
    /\ invoked st' =
         (fst (List.last ((t1, a1) :: rest) (t1, a1)) + wait o,
          Some (snd (List.last ((t1, a1) :: rest) (t1, a1)))) :: invoked st0.
Proof.
  intros Hi Hs Hf.
  set (tN := fst (List.last ((t1, a1) :: rest) (t1, a1))).
  set (aN := snd (List.last ((t1, a1) :: rest) (t1, a1))).
  assert (Hb : t1 <= tN < t1 + wait o).
  { pose proof (last_in (t1, a1) rest (t1, a1)) as Hin.
    pose proof (sorted_head_le t1 a1 rest Hs) as Hlo.
    unfold tN. destruct (List.last ((t1, a1) :: rest) (t1, a1)) as [x y].
    destruct Hin as [Heq | Hin]; [injection Heq as <- _; cbn; lia |].
    rewrite List.Forall_forall in Hf, Hlo.
    specialize (Hf _ Hin). specialize (Hlo _ Hin). cbn in *. lia. }
  destruct (burst_end t1 tN aN (invoked st0) Hb) as (st' & E & Ht & Hinv).
  exists st'. split; [| split; assumption].
  replace (length rest + 3)%nat with (1 + (length rest + 2))%nat by lia.
  rewrite run_add. cbn [run]. rewrite (burst_start t1 a1 rest st0 Hi).
  rewrite run_add, (burst_calls t1 (invoked st0) rest t1 a1); [exact E | lia | exact Hs | exact Hf].
Qed.

End Window.

Lemma exists_snoc {B : Type} (P : B -> Prop) (l : list B) (x : B) :
  P x -> Exists P (l ++ [x]).
Proof. intros Hx. induction l as [| y l IH]; cbn; [constructor; exact Hx | right; exact IH]. Qed.

Lemma min_timer_le (l : list Z) (b : Z) :
  Exists (fun d => d <= b) l -> exists m, min_timer l = Some m /\ m <= b.
Proof.
  induction l as [| d r IH]; intros H; [inversion H |].
  cbn [min_timer]. inversion H as [? ? Hd | ? ? Hr]; subst.
  - destruct (min_timer r) as [m'|]; eexists; split; [reflexivity | lia | reflexivity | lia].
  - destruct (IH Hr) as (m' & -> & Hm'). eexists; split; [reflexivity | lia].
Qed.

Lemma timerExpired_invoked (t : Z) (st : dstate A) :
  exists new, invoked (timerExpired o t st) = new ++ invoked st.
Proof.
  unfold timerExpired, trailingEdge, invokeFunc, setTimeout.
  destruct (shouldInvoke o t st); [destruct (trailing o && _) |]; cbn;
    first [exists []; reflexivity | eexists (_ :: []); reflexivity].
Qed.

Lemma debounced_invoked (t : Z) (a : A) (st : dstate A) :
  exists new, invoked (debounced o t a st) = new ++ invoked st.
Proof.
  unfold debounced, leadingEdge, invokeFunc, setTimeout; cbn.
  destruct (shouldInvoke o t st), (timerId st), (leading o), (maxing o); cbn;
    first [exists []; reflexivity | eexists (_ :: []); reflexivity].
Qed.

Lemma step_invoked (cfg cfg' : list (Z * A) * dstate A) :
  step o cfg = Some cfg' -> exists new, invoked (snd cfg') = new ++ invoked (snd cfg).
Proof.
  destruct cfg as [calls st]. unfold step.
  destruct calls as [| [t a] cs]; destruct (min_timer (timers st)) as [d|];
    try destruct (d <=? t); intros E; try discriminate; injection E as <-; cbn [snd];
    unfold fire;
    match goal with
    | |- context [timerExpired o ?t ?s] =>
        destruct (timerExpired_invoked t s) as [nw H]; exists nw; exact H
    | |- context [debounced o ?t ?a ?s] =>
        destruct (debounced_invoked t a s) as [nw H]; exists nw; exact H
    end.
Qed.

Lemma run_invoked (n : nat) (cfg : list (Z * A) * dstate A) :
  exists new, invoked (snd (run o n cfg)) = new ++ invoked (snd cfg).
Proof.
  revert cfg. induction n as [| n IH]; intros cfg; [exists []; reflexivity |].
  cbn [run]. destruct (step o cfg) as [cfg'|] eqn:E; [| exists []; reflexivity].
  destruct (step_invoked cfg cfg' E) as [new1 H1]. destruct (IH cfg') as [new2 H2].
  exists (new2 ++ new1). rewrite H2, H1, app_assoc. reflexivity.
Qed.

Section Ceiling.

Hypothesis Hwm : wait o <= maxWait o.
Variable t0 : Z.
Variable st0 : dstate A.

Lemma before_first_step (calls : list (Z * A)) (st : dstate A) :
  before_first o t0 st0 st -> late_call o t0 calls ->
  exists calls' st',
    step o (calls, st) = Some (calls', st')
    /\ ((before_first o t0 st0 st' /\ late_call o t0 calls') \/ executed_in_time o t0 st0 st').
Proof.
  intros (Hinv & Hlit & Htid & Hla & Hex) (tb & ab & Hin & Htb).
  destruct (min_timer_le _ _ Hex) as (m & Hm & Hmb).
  destruct calls as [| [t a] cs]; [destruct Hin |].
  unfold step. rewrite Hm.
  destruct (m <=? t) eqn:Emt.
  - exists ((t, a) :: cs), (fire o m st). split; [reflexivity |].
    unfold fire, timerExpired.
    destruct (shouldInvoke o m _) eqn:Esh.
    + right. unfold trailingEdge. rewrite Htrail.
      destruct (lastArgs st) as [la|] eqn:Ela; [| contradiction].
      cbn. exists [], m, (Some la). split; [rewrite Hinv; reflexivity | lia].
    + left. split; [| exists tb, ab; auto].
      unfold setTimeout, before_first; cbn.
      split; [exact Hinv | split; [exact Hlit | split; [reflexivity | split; [exact Hla |]]]].
      apply exists_snoc. unfold remainingWait; cbn. rewrite Hmax, Hlit. lia.
  - apply Z.leb_gt in Emt.
    exists cs, (debounced o t a st). split; [reflexivity |].
    unfold debounced. rewrite Htid, Hmax. cbn [negb andb].
    destruct (shouldInvoke o t st) eqn:Esh.
    + right. cbn. exists [], t, (Some a). split; [rewrite Hinv; reflexivity | lia].
    + left. split.
      * unfold before_first; cbn.
        split; [exact Hinv | split; [exact Hlit | split; [first [exact Htid | reflexivity] | split; [discriminate | exact Hex]]]].
      * destruct Hin as [Heq | Hin]; [injection Heq as -> ->; lia |].
        exists tb, ab. auto.
Qed.

Lemma before_first_run (n : nat) :
  forall (calls : list (Z * A)) (st : dstate A) (cs' : list (Z * A)) (st' : dstate A),
  before_first o t0 st0 st -> late_call o t0 calls ->
  run o n (calls, st) = (cs', st') -> cs' = [] -> executed_in_time o t0 st0 st'.
Proof.
  induction n as [| n IH]; intros calls st cs' st' Hb Hl Hr Hc.
  - cbn in Hr. injection Hr as -> ->. subst cs'.
    destruct Hl as (? & ? & [] & _).
  - destruct (before_first_step calls st Hb Hl) as (calls1 & st1 & E & [[Hb1 Hl1] | Hg]).
    + cbn [run] in Hr. rewrite E in Hr. exact (IH calls1 st1 cs' st' Hb1 Hl1 Hr Hc).
    + cbn [run] in Hr. rewrite E in Hr.
      destruct (run_invoked n (calls1, st1)) as [new' Hnew]. rewrite Hr in Hnew.
      cbn in Hnew. destruct Hg as (new & t & oa & Hi & Ht).
      exists (new' ++ new), t, oa. split; [rewrite Hnew, Hi, app_assoc; reflexivity | exact Ht].
Qed.

(** A burst that starts on a quiescent instance at [t0] and still has
    calls after [t0 + maxWait] has executed by [t0 + maxWait] once those
    calls are processed. *)
Lemma burst_ceiling (a0 : A) (rest : list (Z * A)) (n : nat)
    (cs' : list (Z * A)) (st' : dstate A) :
  idle o t0 st0 = true -> late_call o t0 rest ->
  run o n ((t0, a0) :: rest, st0) = (cs', st') -> cs' = [] -> executed_in_time o t0 st0 st'.
Proof.
  intros Hi Hl Hr Hc.
  destruct n as [| n]; [cbn in Hr; injection Hr as <- _; discriminate |].
  cbn [run] in Hr. rewrite (burst_start t0 a0 rest st0 Hi) in Hr.
  apply (before_first_run n rest (pending o t0 t0 a0 (invoked st0)) cs' st'); [| exact Hl | exact Hr | exact Hc].
  unfold before_first, pending; cbn.
  split; [reflexivity | split; [reflexivity | split; [reflexivity | split; [discriminate |]]]].
  constructor. lia.
Qed.

End Ceiling.

End Burst.

End DebounceFacts.

(** The [maxWait] ceiling: calls to [debouncedWriteStorage] that start a
    burst at [t0] on a quiescent instance and go on past [t0 + 5000]: once the calls are
    processed, [func] (the storage write) has run, the first time at or
    before [t0 + 5000].  The ceiling counts from the first call of the
    burst, whatever the later calls and their spacing. *)
Theorem persist_maxwait_ceiling (t0 : Z) (a0 : Debounce.persist_args)
    (rest : list (Z * Debounce.persist_args)) (st0 : Debounce.dstate Debounce.persist_args)
    (n : nat) (cs' : list (Z * Debounce.persist_args))
    (st' : Debounce.dstate Debounce.persist_args) :
  Debounce.idle Debounce.persist_options t0 st0 = true ->
  (exists t a, In (t, a) rest /\ t0 + 5000 < t) ->
  Debounce.run Debounce.persist_options n ((t0, a0) :: rest, st0) = (cs', st') ->
  cs' = [] ->
  exists new t oa,
    Debounce.invoked st' = new ++ (t, oa) :: Debounce.invoked st0 /\ t <= t0 + 5000.
Proof.
  intros Hi Hl Hr Hc.
  exact (DebounceFacts.burst_ceiling Debounce.persist_args Debounce.persist_options
           eq_refl eq_refl eq_refl ltac:(cbn; lia) ltac:(cbn; lia) t0 st0 a0 rest n cs' st'
           Hi Hl Hr Hc).
Qed.

Lemma persist_maxwait_ceiling_witness :
  exists new t oa,
    Debounce.invoked
      (snd (Debounce.run Debounce.persist_options 60
              ((0, ("h", "c", JNull)) ::
               map (fun k => (900 * Z.of_nat k, ("h", "c", JNum (Z.of_nat k)))) (seq 1 6),
               Debounce.init)))
    = new ++ (t, oa) :: Debounce.invoked (@Debounce.init Debounce.persist_args)
    /\ t <= 0 + 5000.
Proof.
  apply (persist_maxwait_ceiling 0 ("h", "c", JNull)
           (map (fun k => (900 * Z.of_nat k, ("h", "c", JNum (Z.of_nat k)))) (seq 1 6))
           Debounce.init 60 []).
  - vm_compute. reflexivity.
  - exists 5400, ("h", "c", JNum 6). split; [cbn; tauto | lia].
  - vm_compute. reflexivity.
  - reflexivity.
Defined.

(** C5: calls to [debouncedWriteStorage] on a quiescent instance, in time
    order and all less than 1000 after the first: the storage write runs
    exactly once, 1000 after the last call and with the last call's
    arguments, and nothing is left pending. *)
Theorem persist_burst_single_execution (t1 : Z) (a1 : Debounce.persist_args)
    (rest : list (Z * Debounce.persist_args)) (st0 : Debounce.dstate Debounce.persist_args) :
  Debounce.idle Debounce.persist_options t1 st0 = true ->
  Debounce.times_sorted ((t1, a1) :: rest) = true ->
  Forall (fun c => fst c < t1 + 1000) rest ->
  exists st',
    Debounce.run Debounce.persist_options (length rest + 3) ((t1, a1) :: rest, st0) = ([], st')
    /\ Debounce.timers st' = []
    /\ Debounce.invoked st' =
         (fst (List.last ((t1, a1) :: rest) (t1, a1)) + 1000,
          Some (snd (List.last ((t1, a1) :: rest) (t1, a1)))) :: Debounce.invoked st0.
Proof.
  intros Hi Hs Hf.
  exact (DebounceFacts.burst_once Debounce.persist_args Debounce.persist_options
           eq_refl eq_refl eq_refl ltac:(cbn; lia) ltac:(cbn; lia) t1 a1 rest st0 Hi Hs Hf).
Qed.

Lemma persist_burst_single_execution_witness :
  exists st',
    Debounce.run Debounce.persist_options 5
      ((0, ("a", "x", JNull)) :: [(300, ("ab", "x", JNull)); (700, ("abc", "x", JNull))],
       Debounce.init) = ([], st')
    /\ Debounce.timers st' = []
    /\ Debounce.invoked st' = [(1700, Some ("abc", "x", JNull))].
Proof.
  apply (persist_burst_single_execution 0 ("a", "x", JNull)
           [(300, ("ab", "x", JNull)); (700, ("abc", "x", JNull))] Debounce.init).
  - vm_compute. reflexivity.
  - vm_compute. reflexivity.
  - repeat constructor; cbn; lia.
Defined.

(* ================================================================== *)
(** * Further properties of the editor *)

(** ** Publishing: 2xx responses without a usable body *)

(** A 2xx response whose body is [null] or [undefined]: reading
    [response.data.template] throws a TypeError inside the [try], so the
    failure message is alerted and the TypeError logged, although the
    server accepted the request. *)
Theorem publish_2xx_null_body (net : request -> http_outcome) (h c k : string)
    (status : Z) (data : jsval) (log : list event) :
  k <> "" ->
  net (publish_request h c k) = HttpResponse status data ->
  200 <= status < 300 ->
  data = JNull \/ data = JUndefined ->
  exists msg,
    publish net h c k log =
      (inr tt, log ++ [HttpPost (publish_request h c k); Alert publish_fail_msg;
                       ConsoleLog (LExn (TypeError msg))]).
Proof.
  intros Hk Hn Hs Hd.
  assert (Ht : negb (js_truthy (JStr k)) = false) by (rewrite nonempty_truthy; auto).
  unfold publish, try_catch, bind, axios_post, get_prop, alert, console_log, emit,
    ret, throw, lift.
  rewrite Ht, Hn.
  replace ((200 <=? status) && (status <? 300)) with true by lia.
  destruct Hd as [-> | ->]; eexists; simpl; rewrite <- !app_assoc; reflexivity.
Qed.

Lemma publish_2xx_null_body_witness :
  exists msg,
    publish (fun _ => HttpResponse 201 JNull) "h" "c" "k" [] =
      (inr tt, [] ++ [HttpPost (publish_request "h" "c" "k"); Alert publish_fail_msg;
                      ConsoleLog (LExn (TypeError msg))]).
Proof.
  apply (publish_2xx_null_body (fun _ => HttpResponse 201 JNull) "h" "c" "k" 201 JNull []).
  - discriminate.
  - reflexivity.
  - lia.
  - left. reflexivity.
Defined.

(** A 2xx response whose body has no [template] field (an object without
    it, or a string, number, boolean or array): the success message is
    alerted with the template id [undefined]. *)
Theorem publish_2xx_without_template (net : request -> http_outcome) (h c k : string)
    (status : Z) (data : jsval) (log : list event) :
  k <> "" ->
  net (publish_request h c k) = HttpResponse status data ->
  200 <= status < 300 ->
  match data with
  | JUndefined | JNull => False
  | JObj fs => assoc "template" fs = None
  | _ => True
  end ->
  publish net h c k log =
    (inr tt, log ++ [HttpPost (publish_request h c k);
                     Alert "Save successful. Use template ID undefined."]).
Proof.
  intros Hk Hn Hs Hd.
  assert (Ht : negb (js_truthy (JStr k)) = false) by (rewrite nonempty_truthy; auto).
  unfold publish, try_catch, bind, axios_post, get_prop, alert, console_log, emit,
    ret, throw, lift.
  rewrite Ht, Hn.
  replace ((200 <=? status) && (status <? 300)) with true by lia.
  destruct data as [| | b | z | str | xs | fs]; try contradiction;
    cbn; rewrite <- ?app_assoc; try reflexivity.
  unfold field_or_undefined. rewrite Hd. cbn. rewrite <- ?app_assoc. reflexivity.
Qed.

Lemma publish_2xx_without_template_witness :
  publish (fun _ => HttpResponse 200 (JObj [("id", JStr "t1")])) "h" "c" "k" [] =
    (inr tt, [] ++ [HttpPost (publish_request "h" "c" "k");
                    Alert "Save successful. Use template ID undefined."]).
Proof.
  apply (publish_2xx_without_template (fun _ => HttpResponse 200 (JObj [("id", JStr "t1")]))
           "h" "c" "k" 200 (JObj [("id", JStr "t1")]) []).
  - discriminate.
  - reflexivity.
  - lia.
  - reflexivity.
Defined.

(** ** The preview's first render *)

(** On mount the effect recomputes what the initialiser computed: the
    preview shows the compiled text, or the raw template when compiling
    fails, and in that case the warning and the error are logged twice,
    once by the initialiser and once by the effect. *)
Theorem preview_mount_repeats (compile : string -> jsval -> exn + string)
    (h : string) (p : jsval) (log : list event) :
  preview_mount compile h p log =
  match compile h p with
  | inl e => (inr h, log ++ [ConsoleWarn (LStr compile_warning); ConsoleWarn (LExn e);
                             ConsoleWarn (LStr compile_warning); ConsoleWarn (LExn e)])
  | inr out => (inr out, log)
  end.
Proof.
  unfold preview_mount, preview_init, preview_effect, try_catch, bind, lift,
    console_warn, emit, ret, throw.
  destruct (compile h p); simpl; rewrite <- ?app_assoc; reflexivity.
Qed.

(** ** Session runs *)

Lemma publish_no_rejection (net : request -> http_outcome) (h c k : string) (e : exn) :
  ~ In (UnhandledRejection e) (snd (publish net h c k [])).
Proof.
  unfold publish, try_catch, bind, axios_post, get_prop, alert, console_log, emit,
    ret, throw, lift.
  destruct (negb (js_truthy (JStr k))); [simpl; intuition congruence |].
  destruct (net (publish_request h c k)) as [status data|];
    [destruct ((200 <=? status) && (status <? 300)); [destruct data |] |];
    simpl; try (destruct (js_to_string (field_or_undefined _ "template")));
    simpl; intuition congruence.
Qed.

Lemma write_all_error (fits : store -> bool) (stringify : jsval -> string)
    (kvs : list (string * jsval)) (st : store) (e : exn) :
  snd (write_all fits stringify kvs st) = Some e ->
  e = QuotaExceededError /\ exists st', fits st' = false.
Proof.
  revert st. induction kvs as [| [k v] rest IH]; intros st; [discriminate |].
  cbn [write_all]. unfold writeStorage.
  destruct (fits (<[k := storage_text stringify v]> st)) eqn:F; [apply IH |].
  intros E. injection E as <-. eauto.
Qed.

Lemma step_action_completes (parse : string -> option jsval) (net : request -> http_outcome)
    (stringify : jsval -> string) (fits : store -> bool)
    (a : action) (c : config) (log : list event) :
  cfg_loading c = false ->
  exists c' new, step_action parse net stringify fits a c log = (inr c', log ++ new)
    /\ cfg_loading c' = false
    /\ (forall e, In (UnhandledRejection e) new ->
        e = QuotaExceededError /\ exists st, fits st = false).
Proof.
  intros Hl. destruct a; cbn [step_action]; unfold ret, bind.
  - exists {| cfg_session := setHtml v (cfg_session c); cfg_store := cfg_store c;
              cfg_loading := cfg_loading c |}, [].
    rewrite app_nil_r. split; [reflexivity | split; [exact Hl | intros e []]].
  - exists {| cfg_session := setCss v (cfg_session c); cfg_store := cfg_store c;
              cfg_loading := cfg_loading c |}, [].
    rewrite app_nil_r. split; [reflexivity | split; [exact Hl | intros e []]].
  - rewrite onDataChange_eq. destruct (parse v).
    + eexists _, []. rewrite app_nil_r. split; [reflexivity | split; [exact Hl | intros e []]].
    + eexists _, _. split; [reflexivity | split; [exact Hl |]].
      intros e [E | []]. discriminate.
  - exists {| cfg_session := setApiKey v (cfg_session c); cfg_store := cfg_store c;
              cfg_loading := cfg_loading c |}, [].
    rewrite app_nil_r. split; [reflexivity | split; [exact Hl | intros e []]].
  - rewrite Hl. unfold button_click. rewrite publish_log.
    eexists _, _. split; [reflexivity | split; [reflexivity |]].
    intros e Hin. exfalso. exact (publish_no_rejection _ _ _ _ e Hin).
  - pose proof (write_all_error fits stringify
                  [("html", JStr (html (cfg_session c))); ("css", JStr (css (cfg_session c)));
                   ("params", params (cfg_session c))] (cfg_store c)) as Hw.
    unfold write_snapshot. destruct (write_all _ _ _ _) as [st' [err|]]; cbn [snd] in Hw.
    + unfold emit. eexists _, [UnhandledRejection err].
      split; [reflexivity | split; [exact Hl |]].
      intros e [E | []]. injection E as <-. apply Hw. reflexivity.
    + eexists _, []. rewrite app_nil_r. split; [reflexivity | split; [exact Hl | intros e []]].
Qed.

(** Every user action of a session completes normally, only appends to
    the log, and leaves the publish button enabled: no action throws to
    its caller and the button never stays stuck in [loading].  The one
    error that escapes is a local-storage write refused by the browser's
    quota inside the debounced save, an unhandled promise rejection;
    when every write fits, none occurs. *)
Theorem session_run_completes (parse : string -> option jsval) (net : request -> http_outcome)
    (stringify : jsval -> string) (fits : store -> bool)
    (acts : list action) (c : config) (log : list event) :
  cfg_loading c = false ->
  exists c' new, run_session parse net stringify fits acts c log = (inr c', log ++ new)
    /\ cfg_loading c' = false
    /\ (forall e, In (UnhandledRejection e) new -> e = QuotaExceededError)
    /\ ((forall st, fits st = true) -> forall e, ~ In (UnhandledRejection e) new).
Proof.
  intros Hl0.
  assert (G : forall c log, cfg_loading c = false ->
            exists c' new, run_session parse net stringify fits acts c log = (inr c', log ++ new)
              /\ cfg_loading c' = false
              /\ (forall e, In (UnhandledRejection e) new ->
                  e = QuotaExceededError /\ exists st, fits st = false)).
  { induction acts as [| a rest IH]; intros c0 log0 Hl.
    - exists c0, []. rewrite app_nil_r. split; [reflexivity | split; [exact Hl | intros e []]].
    - cbn [run_session]. unfold bind.
      destruct (step_action_completes parse net stringify fits a c0 log0 Hl)
        as (c1 & n1 & E1 & L1 & R1).
      rewrite E1.
      destruct (IH c1 (log0 ++ n1) L1) as (c2 & n2 & E2 & L2 & R2).
      exists c2, (n1 ++ n2). rewrite E2, app_assoc.
      split; [reflexivity | split; [exact L2 |]].
      intros e Hin. apply in_app_or in Hin as [Hin | Hin]; auto. }
  destruct (G c log Hl0) as (c' & new & E & L & R).
  exists c', new. split; [exact E | split; [exact L | split]].
  - intros e Hin. apply (R e Hin).
  - intros Hf e Hin. destruct (R e Hin) as [_ [st Hst]]. rewrite Hf in Hst. discriminate.
Qed.

Lemma session_run_completes_witness :
  exists c' new,
    run_session json_parse (fun _ => NetworkFailure) json_stringify (fun _ => true)
      [EditData "{"; EditApiKey "k"; ClickPublish; StorageFlush]
      (mk_config (mk_session "h" "c" default_params "{}" "") ∅ false) [] = (inr c', [] ++ new)
    /\ cfg_loading c' = false
    /\ (forall e, In (UnhandledRejection e) new -> e = QuotaExceededError)
    /\ ((forall st : store, (fun _ : store => true) st = true) -> forall e, ~ In (UnhandledRejection e) new).
Proof.
  apply (session_run_completes json_parse (fun _ => NetworkFailure) json_stringify (fun _ => true)
           [EditData "{"; EditApiKey "k"; ClickPublish; StorageFlush]
           (mk_config (mk_session "h" "c" default_params "{}" "") ∅ false) []).
  reflexivity.
Defined.

Lemma step_action_data_text (parse : string -> option jsval) (net : request -> http_outcome)
    (stringify : jsval -> string) (fits : store -> bool)
    (a : action) (c c' : config) (log log' : list event) :
  parse (paramsJson (cfg_session c)) = Some (params (cfg_session c)) ->
  step_action parse net stringify fits a c log = (inr c', log') ->
  parse (paramsJson (cfg_session c')) = Some (params (cfg_session c')).
Proof.
  intros Hp. destruct a; cbn [step_action]; unfold ret, bind; intros E.
  - inversion E; subst. exact Hp.
  - inversion E; subst. exact Hp.
  - rewrite onDataChange_eq in E. destruct (parse v) eqn:Ev; inversion E; subst; cbn; auto.
  - inversion E; subst. exact Hp.
  - destruct (button_click _ _ _) as [l' [r l2]]. inversion E; subst. exact Hp.
  - destruct (write_snapshot _ _ _ _ _ _) as [st' [err|]]; unfold emit in E;
      inversion E; subst; exact Hp.
Qed.

(** The data editor's text and the data object in use stay consistent:
    when the text parses to the object before a run, it still does after
    any sequence of actions, since a data edit replaces both together or
    neither. *)
Theorem session_data_text_parses (parse : string -> option jsval) (net : request -> http_outcome)
    (stringify : jsval -> string) (fits : store -> bool)
    (acts : list action) (c c' : config) (log log' : list event) :
  parse (paramsJson (cfg_session c)) = Some (params (cfg_session c)) ->
  run_session parse net stringify fits acts c log = (inr c', log') ->
  parse (paramsJson (cfg_session c')) = Some (params (cfg_session c')).
Proof.
  revert c log. induction acts as [| a rest IH]; intros c log Hp E.
  - cbn in E. inversion E; subst. exact Hp.
  - cbn [run_session] in E. unfold bind in E.
    destruct (step_action parse net stringify fits a c log) as [[e | c1] log1] eqn:E1; [discriminate |].
    exact (IH c1 log1 (step_action_data_text parse net stringify fits a c c1 log log1 Hp E1) E).
Qed.

Lemma session_data_text_parses_witness :
  json_parse (paramsJson (mk_session "h" "c" (JObj []) "{}" "")) = Some (params (mk_session "h" "c" (JObj []) "{}" ""))
  /\ json_parse "[1]" = Some (JArr [JNum 1]).
Proof.
  split; [reflexivity |].
  apply (session_data_text_parses json_parse (fun _ => NetworkFailure) json_stringify (fun _ => true)
           [EditData "{"; EditData "[1]"; StorageFlush]
           (mk_config (mk_session "h" "c" (JObj []) "{}" "") ∅ false)
           (mk_config (mk_session "h" "c" (JArr [JNum 1]) "[1]" "")
              (fst (write_snapshot (fun _ => true) json_stringify "h" "c" (JArr [JNum 1]) ∅)) false)
           [] [ConsoleWarn (LStr "Error parsing JSON")]).
  - reflexivity.
  - reflexivity.
Defined.

(** ** lodash.debounce once the event loop drains *)

Module DebounceDrain.
Import Debounce.

Section Drain.

Variable A : Type.
Variable o : options.

Lemma min_timer_in (l : list Z) (d : Z) : min_timer l = Some d -> In d l.
Proof.
  revert d. induction l as [| x r IH]; intros d; cbn; [discriminate |].
  destruct (min_timer r) as [m|] eqn:E; intros H; inversion H; subst.
  - destruct (Z.min_spec x m) as [[_ ->] | [_ ->]]; [left; reflexivity | right; apply IH; reflexivity].
  - left. reflexivity.
Qed.

Lemma Forall_remove_first (P : Z -> Prop) (d : Z) (l : list Z) :
  Forall P l -> Forall P (remove_first d l).
Proof.
  induction 1 as [| x r Hx Hr IH]; cbn; [constructor |].
  destruct (Z.eqb x d); [exact Hr | constructor; assumption].
Qed.

(** Executions only ever add entries with arguments. *)
Lemma step_args (calls calls' : list (Z * A)) (st st' : dstate A) :
  executions_have_args st -> step o (calls, st) = Some (calls', st') -> executions_have_args st'.
Proof.
  unfold executions_have_args.
  assert (Hd : forall t a (s : dstate A), Forall (fun e : Z * option A => snd e <> None) (invoked s) ->
                 Forall (fun e : Z * option A => snd e <> None) (invoked (debounced o t a s))).
  { intros t a s H. unfold debounced, leadingEdge, invokeFunc, setTimeout.
    destruct (shouldInvoke o t s), (timerId s), (maxing o), (leading o); cbn;
      repeat constructor; try discriminate; exact H. }
  assert (Hf : forall d (s : dstate A), Forall (fun e : Z * option A => snd e <> None) (invoked s) ->
                 Forall (fun e : Z * option A => snd e <> None) (invoked (fire o d s))).
  { intros d s H. unfold fire, timerExpired, trailingEdge, invokeFunc, setTimeout.
    cbn. destruct (shouldInvoke _ _ _); cbn; [| exact H].
    destruct (trailing o), (lastArgs s); cbn; try exact H.
    constructor; [discriminate | exact H]. }
  intros H. cbn [step].
  destruct calls as [| [t a] cs]; destruct (min_timer (timers st)) as [d|].
  - intros E. inversion E; subst. apply Hf. exact H.
  - discriminate.
  - destruct (d <=? t); intros E; inversion E; subst; [apply Hf | apply Hd]; exact H.
  - intros E. inversion E; subst. apply Hd. exact H.
Qed.

Lemma run_args (n : nat) (calls cs' : list (Z * A)) (st st' : dstate A) :
  executions_have_args st -> run o n (calls, st) = (cs', st') -> executions_have_args st'.
Proof.
  revert calls st. induction n as [| n IH]; intros calls st H E; cbn [run] in E.
  - inversion E; subst. exact H.
  - destruct (step o (calls, st)) as [[calls1 st1] |] eqn:Es.
    + exact (IH calls1 st1 (step_args calls calls1 st st1 H Es) E).
    + inversion E; subst. exact H.
Qed.

Hypothesis Hw : 0 <= wait o.
Hypothesis Htrail : trailing o = true.

(** The timers queued are due by [wait] after any later call. *)
Lemma timers_before (st : dstate A) (t : Z) :
  well_formed o st ->
  match lastCallTime st with Some l => l <= t | None => True end ->
  Forall (fun d => d <= t + wait o) (timers st).
Proof.
  intros (_ & _ & W3) Ht. destruct (lastCallTime st) as [l|].
  - apply (Forall_impl _ _ _ W3). intros d Hd. lia.
  - rewrite W3. constructor.
Qed.

Lemma call_served (t : Z) (a : A) (st : dstate A) :
  well_formed o st ->
  match lastCallTime st with Some l => l <= t | None => True end ->
  well_formed o (debounced o t a st) /\ latest_served o (debounced o t a st) (Some (t, a)).
Proof.
  intros Hwf Ht.
  pose proof (timers_before st t Hwf Ht) as F.
  destruct Hwf as (W1 & W2 & W3).
  assert (Fa : Forall (fun d => d <= t + wait o) (timers st ++ [t + Z.max 0 (wait o)])).
  { apply Forall_app. split; [exact F | constructor; [lia | constructor]]. }
  assert (Hne : forall l : list Z, l ++ [t + Z.max 0 (wait o)] <> []).
  { intros l E. destruct l; discriminate. }
  unfold debounced, leadingEdge, invokeFunc, setTimeout, well_formed, latest_served.
  destruct (shouldInvoke o t st), (timerId st) eqn:Et, (maxing o), (leading o); cbn;
    repeat split; try discriminate; auto;
    try (right; split; [reflexivity | eexists; split; [reflexivity | lia]]);
    try (left; reflexivity).
Qed.

Lemma fire_served (d : Z) (st : dstate A) (ol : option (Z * A)) :
  well_formed o st -> min_timer (timers st) = Some d -> latest_served o st ol ->
  well_formed o (fire o d st) /\ lastCallTime (fire o d st) = lastCallTime st
  /\ latest_served o (fire o d st) ol.
Proof.
  intros (W1 & W2 & W3) Hm Hl.
  pose proof (min_timer_in _ _ Hm) as Hin.
  destruct (lastCallTime st) as [l|] eqn:El; [| rewrite W3 in Hin; destruct Hin].
  assert (Hd : d <= l + wait o) by (rewrite List.Forall_forall in W3; apply W3, Hin).
  pose proof (Forall_remove_first _ d _ W3) as Fr.
  unfold fire, timerExpired.
  destruct (shouldInvoke o d _) eqn:Es.
  - unfold trailingEdge, invokeFunc. rewrite Htrail. cbn.
    destruct (lastArgs st) as [x|] eqn:Ea; cbn.
    + unfold well_formed, latest_served. cbn. rewrite El.
      split; [repeat split; try (intros Hc; congruence); exact Fr | split; [reflexivity |]].
      destruct ol as [[t a] |]; [| exact I].
      unfold latest_served in Hl. rewrite El, Ea in Hl.
      destruct Hl as [Hlt [Hx | [Hx _]]]; [| discriminate].
      inversion Hlt; inversion Hx; subst.
      split; [reflexivity | right; split; [reflexivity | eexists; split; [reflexivity | lia]]].
    + unfold well_formed, latest_served. cbn. rewrite El.
      split; [repeat split; try (intros Hc; congruence); exact Fr | split; [reflexivity |]].
      destruct ol as [[t a] |]; [| exact I].
      unfold latest_served in Hl. rewrite El, Ea in Hl.
      destruct Hl as [Hlt [Hx | [_ Hx]]]; [discriminate |].
      split; [exact Hlt | right; split; [reflexivity | exact Hx]].
  - unfold setTimeout, remainingWait, well_formed, latest_served. cbn. rewrite El.
    split; [| split; [reflexivity |]].
    + repeat split.
      * intros E. destruct (remove_first d (timers st)); discriminate.
      * apply Forall_app. split; [exact Fr |].
        constructor; [| constructor].
        destruct (maxing o); lia.
    + destruct ol as [[t a] |]; [| exact I].
      unfold latest_served in Hl. rewrite El in Hl. exact Hl.
Qed.

Lemma latest_cons (ol : option (Z * A)) (c : Z * A) (cs : list (Z * A)) :
  latest ol (c :: cs) = latest (Some c) cs.
Proof. reflexivity. Qed.

(** Run to the end, the instance stays consistent and the latest call is
    served. *)
Lemma run_drain (n : nat) : forall (calls : list (Z * A)) (st st' : dstate A) ol,
  well_formed o st -> calls_ahead calls st = true -> latest_served o st ol ->
  run o n (calls, st) = ([], st') ->
  well_formed o st' /\ latest_served o st' (latest ol calls).
Proof.
  induction n as [| n IH]; intros calls st st' ol Hwf Ha Hl E; cbn [run] in E.
  - inversion E; subst. auto.
  - cbn [step] in E.
    destruct calls as [| [t a] cs].
    + destruct (min_timer (timers st)) as [d|] eqn:Em.
      * destruct (fire_served d st ol Hwf Em Hl) as (W' & _ & L').
        exact (IH [] (fire o d st) st' ol W' eq_refl L' E).
      * inversion E; subst. auto.
    + unfold calls_ahead in Ha. apply andb_prop in Ha as [Hs Hc].
      assert (Hcall : match lastCallTime st with Some l => l <= t | None => True end).
      { destruct (lastCallTime st); [lia | exact I]. }
      assert (Hrest : calls_ahead cs (debounced o t a st) = true).
      { destruct (call_served t a st Hwf Hcall) as (_ & Hlc & _).
        unfold calls_ahead. rewrite Hlc.
        destruct cs as [| [t' a'] cs']; cbn in Hs |- *; [reflexivity |].
        apply andb_prop in Hs as [H1 H2]. rewrite H2. cbn. exact H1. }
      assert (Hcase : run o n (cs, debounced o t a st) = ([], st') ->
                      well_formed o st' /\ latest_served o st' (latest ol ((t, a) :: cs))).
      { intros E'. destruct (call_served t a st Hwf Hcall) as (W' & L').
        rewrite latest_cons. exact (IH cs _ st' _ W' Hrest L' E'). }
      destruct (min_timer (timers st)) as [d|] eqn:Em; [| exact (Hcase E)].
      destruct (d <=? t); [| exact (Hcase E)].
      destruct (fire_served d st ol Hwf Em Hl) as (W' & Hlc & L').
      apply (IH ((t, a) :: cs) (fire o d st) st' ol W'); [| exact L' | exact E].
      unfold calls_ahead. rewrite Hlc, Hs. cbn.
      destruct (lastCallTime st); [exact Hc | reflexivity].
Qed.

(** When no call and no timer is left, nothing is pending and the latest
    execution ran with the last call's arguments, by [wait] after it. *)
Lemma drain_last_call (n : nat) (pre : list (Z * A)) (tN : Z) (aN : A) (st0 st' : dstate A) :
  well_formed o st0 -> calls_ahead (pre ++ [(tN, aN)]) st0 = true ->
  run o n (pre ++ [(tN, aN)], st0) = ([], st') -> timers st' = [] ->
  lastArgs st' = None
  /\ exists t', hd_error (invoked st') = Some (t', Some aN) /\ t' <= tN + wait o.
Proof.
  intros Hwf Ha E Ht.
  destruct (run_drain n _ st0 st' None Hwf Ha I E) as ((W1 & W2 & _) & L).
  unfold latest in L. rewrite fold_left_app in L. cbn in L.
  destruct L as [_ [Hx | [Hx Hex]]].
  - exfalso. rewrite Ht in W2.
    assert (timerId st' = true) by (apply W1; rewrite Hx; discriminate).
    apply W2; auto.
  - split; [exact Hx | exact Hex].
Qed.

End Drain.

Lemma write_snapshot_lookups (fits : store -> bool) (stringify : jsval -> string)
    (h c : string) (p : jsval) (st : store) :
  (forall st', fits st' = true) ->
  fst (write_snapshot fits stringify h c p st) !! "html" = Some h
  /\ fst (write_snapshot fits stringify h c p st) !! "css" = Some c
  /\ fst (write_snapshot fits stringify h c p st) !! "params" = Some (storage_text stringify p).
Proof.
  intros Hf. unfold write_snapshot, write_all, writeStorage. rewrite !Hf. cbn [fst storage_text].
  rewrite (lookup_insert_ne _ "params" "html") by discriminate.
  rewrite (lookup_insert_ne _ "css" "html") by discriminate.
  rewrite lookup_insert_eq.
  rewrite (lookup_insert_ne _ "params" "css") by discriminate.
  rewrite !lookup_insert_eq.
  auto.
Qed.

End DebounceDrain.

(** Every execution of a lodash debounce instance receives the arguments
    of a call: [debouncedWriteStorage] never writes [undefined] documents.
    This holds for any options and any interleaving of calls and timers. *)
Theorem debounce_executions_have_args (A : Type) (o : Debounce.options) (n : nat)
    (calls cs' : list (Z * A)) (st st' : Debounce.dstate A) :
  Debounce.executions_have_args st ->
  Debounce.run o n (calls, st) = (cs', st') ->
  Debounce.executions_have_args st'.
Proof. apply DebounceDrain.run_args. Qed.

Lemma debounce_executions_have_args_witness :
  Debounce.executions_have_args
    (snd (Debounce.run Debounce.persist_options 20
            ([(0, ("a", "x", JNull)); (900, ("ab", "x", JNull)); (6000, ("abc", "x", JNull))],
             Debounce.init))).
Proof.
  apply (debounce_executions_have_args Debounce.persist_args Debounce.persist_options 20
           [(0, ("a", "x", JNull)); (900, ("ab", "x", JNull)); (6000, ("abc", "x", JNull))]
           (fst (Debounce.run Debounce.persist_options 20
                   ([(0, ("a", "x", JNull)); (900, ("ab", "x", JNull)); (6000, ("abc", "x", JNull))],
                    Debounce.init)))
           Debounce.init).
  - constructor.
  - apply surjective_pairing.
Defined.

(** Once the calls of [debouncedWriteStorage] stop and its timers have
    fired, nothing is pending, the latest execution ran with the arguments
    [(html, css, params)] of the last call no later than 1000 ms after that
    call, and, when the browser accepts every write, local storage holds
    the texts of exactly those documents.  The calls come
    in time order from a consistent instance (e.g. a fresh one). *)
Theorem persist_drain_last_documents (n : nat) (pre : list (Z * Debounce.persist_args))
    (tN : Z) (h c : string) (p : jsval) (st0 st' : Debounce.dstate Debounce.persist_args)
    (fits : store -> bool) (stringify : jsval -> string) (S0 : store) :
  Debounce.well_formed Debounce.persist_options st0 ->
  Debounce.calls_ahead (pre ++ [(tN, (h, c, p))]) st0 = true ->
  Debounce.run Debounce.persist_options n (pre ++ [(tN, (h, c, p))], st0) = ([], st') ->
  Debounce.timers st' = [] ->
  Debounce.lastArgs st' = None
  /\ (exists t', hd_error (Debounce.invoked st') = Some (t', Some (h, c, p)) /\ t' <= tN + 1000)
  /\ ((forall st, fits st = true) ->
      storage_after fits stringify (Debounce.invoked st') S0 !! "html" = Some h
      /\ storage_after fits stringify (Debounce.invoked st') S0 !! "css" = Some c
      /\ storage_after fits stringify (Debounce.invoked st') S0 !! "params"
           = Some (storage_text stringify p)).
Proof.
  intros Hwf Ha E Ht.
  destruct (DebounceDrain.drain_last_call _ Debounce.persist_options ltac:(cbv; discriminate)
              eq_refl n pre tN (h, c, p) st0 st' Hwf Ha E Ht) as (Hx & t' & Hhd & Hle).
  split; [exact Hx |]. split; [exists t'; split; [exact Hhd | exact Hle] |].
  destruct (Debounce.invoked st') as [| e rest]; [discriminate |].
  cbn in Hhd. inversion Hhd; subst. cbn.
  intros Hf. apply DebounceDrain.write_snapshot_lookups, Hf.
Qed.

Lemma persist_drain_last_documents_witness :
  Debounce.lastArgs
    (snd (Debounce.run Debounce.persist_options 30
            ([(0, ("a", "x", JNull)); (900, ("ab", "x", JNull)); (1800, ("abc", "y", JBool true))],
             Debounce.init))) = None.
Proof.
  refine (proj1 (persist_drain_last_documents 30 [(0, ("a", "x", JNull)); (900, ("ab", "x", JNull))]
           1800 "abc" "y" (JBool true) Debounce.init
           (snd (Debounce.run Debounce.persist_options 30
                   ([(0, ("a", "x", JNull)); (900, ("ab", "x", JNull)); (1800, ("abc", "y", JBool true))],
                    Debounce.init))) (fun _ => true) json_stringify ∅ _ _ _ _)).
  - unfold Debounce.well_formed. cbn. repeat split; intros Hc; congruence.
  - reflexivity.
  - vm_compute. reflexivity.
  - vm_compute. reflexivity.
Defined.

(** ** Saves during continuous typing (C4) *)

Module DebouncePeriodic.
Import Debounce.

Ltac zdec :=
  repeat match goal with
  | |- context [?x <=? ?y] =>
      first [ replace (x <=? y) with true by lia | replace (x <=? y) with false by lia ]
  | |- context [?x <? ?y] =>
      first [ replace (x <? y) with true by lia | replace (x <? y) with false by lia ]
  end.

Lemma min_timer_none (l : list Z) : min_timer l = None -> l = [].
Proof. destruct l as [| x r]; cbn; [auto |]. destruct (min_timer r); discriminate. Qed.

Lemma min_timer_some (l : list Z) : l <> [] -> exists d, min_timer l = Some d.
Proof.
  intros H. destruct (min_timer l) eqn:E; [eauto |].
  apply min_timer_none in E. contradiction.
Qed.

Lemma min_timer_mem (l : list Z) (d : Z) : min_timer l = Some d -> In d l.
Proof.
  revert d. induction l as [| x r IH]; intros d; cbn; [discriminate |].
  destruct (min_timer r) as [m|] eqn:E; intros H; injection H as <-.
  - destruct (Z.min_spec x m) as [[_ ->] | [_ ->]]; [left; reflexivity | right; apply IH; reflexivity].
  - left. reflexivity.
Qed.

Lemma min_timer_all (l : list Z) (d : Z) : min_timer l = Some d -> forall x, In x l -> d <= x.
Proof.
  revert d. induction l as [| x r IH]; intros d; cbn; [discriminate |].
  destruct (min_timer r) as [m|] eqn:E; intros H; injection H as <-; intros y [<- | Hy].
  - lia.
  - specialize (IH m eq_refl y Hy). lia.
  - lia.
  - apply min_timer_none in E. subst r. destruct Hy.
Qed.

Lemma remove_first_incl (d x : Z) (l : list Z) : In x (remove_first d l) -> In x l.
Proof.
  induction l as [| y r IH]; cbn; [auto |].
  destruct (Z.eqb y d); [intros H; right; exact H |].
  intros [-> | H]; [left; reflexivity | right; apply IH, H].
Qed.

Lemma spaced_push (m x : Z) (l : list Z) (t0 : Z) :
  spaced m (l ++ [t0]) = true -> hd t0 l <= x <= hd t0 l + m ->
  spaced m (x :: l ++ [t0]) = true.
Proof.
  intros H [H1 H2]. apply Z.leb_le in H1, H2.
  destruct l as [| y r]; cbn [hd app] in *; cbn [spaced]; rewrite H1, H2; exact H.
Qed.

Lemma spaced_tail (m x : Z) (l : list Z) : spaced m (x :: l) = true -> spaced m l = true.
Proof.
  destruct l as [| y r]; [reflexivity |].
  cbn [spaced]. intros H. apply andb_prop in H as [_ H]. exact H.
Qed.

Lemma spaced_app (m : Z) (l r : list Z) : spaced m (l ++ r) = true -> spaced m r = true.
Proof.
  induction l as [| x l IH]; [auto |].
  intros H. apply IH. exact (spaced_tail m x (l ++ r) H).
Qed.

Section Periodic.

Variable A : Type.
Variable o : options.
Hypothesis Hlead : leading o = false.
Hypothesis Hmax : maxing o = true.
Hypothesis Htrail : trailing o = true.
Hypothesis Hw : 0 <= wait o.
Hypothesis H2w : 2 * wait o <= maxWait o.

(** A timer firing during the burst: a trailing execution at [d] comes
    within [maxWait] of the previous one; otherwise the timer is re-armed
    no later than [maxWait] after it. *)
Lemma periodic_fire (t0 : Z) (st0 : dstate A) (done cs : list (Z * A)) (st : dstate A) (d : Z) :
  burst_inv o t0 st0 done cs st ->
  min_timer (timers st) = Some d ->
  match cs with (t, _) :: _ => d <= t | [] => True end ->
  burst_inv o t0 st0 done cs (fire o d st).
Proof.
  intros (new & lct & Hinv & Hsp & Hargs & HL & Hlct & W1 & I6 & I7 & I8 & Hcs & Hcont & Hdone)
    Hd Hdt.
  pose proof (min_timer_mem _ _ Hd) as Hin.
  pose proof (min_timer_all _ _ Hd) as Hall.
  rewrite List.Forall_forall in I8, Hdone.
  destruct (I8 d Hin) as [[Hd1 Hd2] Hd3].
  unfold fire, timerExpired, shouldInvoke, remainingWait, trailingEdge, invokeFunc, setTimeout.
  cbn [lastCallTime lastInvokeTime lastArgs timerId timers invoked].
  rewrite Hlct, Hmax, Htrail. cbn [andb].
  destruct (_ || _ || _).
  - destruct (lastArgs st) as [la|] eqn:Ela; cbn [andb].
    + exists ((d, Some la) :: new), lct.
      cbn [lastCallTime lastInvokeTime lastArgs timerId timers invoked map app hd fst].
      split; [rewrite Hinv; reflexivity |].
      split; [apply spaced_push; [exact Hsp | rewrite <- HL; cbn [fst]; lia] |].
      split; [constructor; [discriminate | exact Hargs] |].
      split; [reflexivity |]. split; [reflexivity |].
      split; [intros Hc; contradiction Hc; reflexivity |].
      split; [intros _; exact Hd3 |].
      split; [discriminate |].
      split.
      { rewrite List.Forall_forall. intros x Hx. apply remove_first_incl in Hx.
        destruct (I8 x Hx) as [[Hx1 Hx2] Hx3]. specialize (Hall x Hx). lia. }
      split; [destruct cs as [| [t a] cs']; [exact I | lia] |].
      split; [exact Hcont |].
      rewrite List.Forall_forall. intros c Hc. specialize (Hdone c Hc). lia.
    + exists new, lct.
      cbn [lastCallTime lastInvokeTime lastArgs timerId timers invoked].
      split; [exact Hinv |]. split; [exact Hsp |]. split; [exact Hargs |].
      split; [exact HL |]. split; [first [exact Hlct | reflexivity] |].
      split; [intros Hc; contradiction Hc; reflexivity |].
      split; [exact I6 |].
      split; [discriminate |].
      split.
      { rewrite List.Forall_forall. intros x Hx. apply remove_first_incl in Hx.
        exact (I8 x Hx). }
      split; [exact Hcs |]. split; [exact Hcont |].
      rewrite List.Forall_forall. exact Hdone.
  - exists new, lct.
    cbn [lastCallTime lastInvokeTime lastArgs timerId timers invoked].
    split; [exact Hinv |]. split; [exact Hsp |]. split; [exact Hargs |].
    split; [exact HL |]. split; [first [exact Hlct | reflexivity] |].
    split; [intros _; reflexivity |].
    split; [exact I6 |].
    split; [intros _; destruct (remove_first d (timers st)); discriminate |].
    split.
    { rewrite List.Forall_forall. intros x Hx. apply in_app_or in Hx as [Hx | [<- | []]].
      - apply remove_first_incl in Hx. exact (I8 x Hx).
      - lia. }
    split; [exact Hcs |]. split; [exact Hcont |].
    rewrite List.Forall_forall. exact Hdone.
Qed.

(** A call during the burst: it comes within [maxWait] of the latest
    execution, so it neither executes nor restarts the [maxWait] clock. *)
Lemma periodic_call (t0 : Z) (st0 : dstate A) (done cs : list (Z * A)) (st : dstate A)
    (t : Z) (a : A) :
  burst_inv o t0 st0 done ((t, a) :: cs) st ->
  (forall d, min_timer (timers st) = Some d -> t < d) ->
  burst_inv o t0 st0 (done ++ [(t, a)]) cs (debounced o t a st).
Proof.
  intros (new & lct & Hinv & Hsp & Hargs & HL & Hlct & W1 & I6 & I7 & I8 & Hcs & Hcont & Hdone)
    Hlt.
  destruct Hcs as (Ht1 & Ht2 & Ht3).
  assert (Hnext : match cs with
                  | (t', _) :: _ => t <= t' /\ t' < t + wait o
                  | [] => True
                  end /\ continuous (wait o) cs = true).
  { destruct cs as [| [t' a'] cs']; [split; [exact I | reflexivity] |].
    cbn [continuous] in Hcont.
    apply andb_prop in Hcont as [Hc1 Hc2]. apply andb_prop in Hc1 as [Hc0 Hc1].
    apply Z.leb_le in Hc0. apply Z.ltb_lt in Hc1. split; [lia | exact Hc2]. }
  destruct Hnext as [Hnext Hcont'].
  rewrite List.Forall_forall in I8, Hdone.
  assert (Hgt : forall x, In x (timers st) -> t < x).
  { intros x Hx. destruct (min_timer_some (timers st)) as [m Hm];
      [intros E; rewrite E in Hx; destruct Hx |].
    pose proof (min_timer_all _ _ Hm x Hx). specialize (Hlt m Hm). lia. }
  assert (Hwm : wait o <= maxWait o) by lia.
  assert (Hnear : t < lastInvokeTime st + maxWait o).
  { destruct (timerId st) eqn:Etid.
    - destruct (min_timer_some (timers st)) as [m Hm]; [apply I7; reflexivity |].
      destruct (I8 m (min_timer_mem _ _ Hm)) as [[_ Hm2] _]. specialize (Hlt m Hm). lia.
    - destruct (lastArgs st) as [la|] eqn:Ela;
        [specialize (W1 ltac:(discriminate)); discriminate |].
      specialize (I6 eq_refl). lia. }
  assert (Hsh : shouldInvoke o t st = false).
  { unfold shouldInvoke. rewrite Hlct, Hmax. cbn [andb]. zdec. reflexivity. }
  unfold debounced. rewrite Hsh. cbn [andb negb timerId].
  destruct (timerId st) eqn:Etid; cbn [negb].
  - exists new, t.
    cbn [lastCallTime lastInvokeTime lastArgs timerId timers invoked].
    split; [exact Hinv |]. split; [exact Hsp |]. split; [exact Hargs |].
    split; [exact HL |]. split; [reflexivity |].
    split; [intros _; reflexivity |].
    split; [discriminate |].
    split; [exact I7 |].
    split.
    { rewrite List.Forall_forall. intros x Hx. destruct (I8 x Hx) as [Hx1 _].
      specialize (Hgt x Hx). lia. }
    split; [destruct cs as [| [t' a'] cs']; [exact I | lia] |].
    split; [exact Hcont' |].
    rewrite List.Forall_forall. intros c Hc. apply in_app_or in Hc as [Hc | [<- | []]].
    + exact (Hdone c Hc).
    + cbn. lia.
  - destruct (lastArgs st) as [la|] eqn:Ela;
      [specialize (W1 ltac:(discriminate)); discriminate |].
    specialize (I6 eq_refl).
    unfold setTimeout.
    exists new, t.
    cbn [lastCallTime lastInvokeTime lastArgs timerId timers invoked].
    split; [exact Hinv |]. split; [exact Hsp |]. split; [exact Hargs |].
    split; [exact HL |]. split; [reflexivity |].
    split; [intros _; reflexivity |].
    split; [discriminate |].
    split; [intros _; destruct (timers st); discriminate |].
    split.
    { rewrite List.Forall_forall. intros x Hx. apply in_app_or in Hx as [Hx | [<- | []]].
      - destruct (I8 x Hx) as [Hx1 _]. specialize (Hgt x Hx). lia.
      - lia. }
    split; [destruct cs as [| [t' a'] cs']; [exact I | lia] |].
    split; [exact Hcont' |].
    rewrite List.Forall_forall. intros c Hc. apply in_app_or in Hc as [Hc | [<- | []]].
    + exact (Hdone c Hc).
    + cbn. lia.
Qed.

Lemma periodic_step (t0 : Z) (st0 : dstate A) (done cs cs' : list (Z * A)) (st st' : dstate A) :
  burst_inv o t0 st0 done cs st ->
  step o (cs, st) = Some (cs', st') ->
  exists done', burst_inv o t0 st0 done' cs' st' /\ done ++ cs = done' ++ cs'.
Proof.
  intros Hi. unfold step.
  destruct cs as [| [t a] cs0]; destruct (min_timer (timers st)) as [d|] eqn:Hd.
  - intros E. injection E as <- <-. exists done.
    split; [apply periodic_fire; [exact Hi | exact Hd | exact I] | reflexivity].
  - discriminate.
  - destruct (d <=? t) eqn:Edt; intros E; injection E as <- <-.
    + exists done. split; [| reflexivity].
      apply periodic_fire; [exact Hi | exact Hd |]. cbn. apply Z.leb_le. exact Edt.
    + exists (done ++ [(t, a)]). split; [| rewrite <- app_assoc; reflexivity].
      apply periodic_call; [exact Hi |].
      intros d' Hd'. rewrite Hd in Hd'. injection Hd' as <-. apply Z.leb_gt. exact Edt.
  - intros E. injection E as <- <-. exists (done ++ [(t, a)]).
    split; [| rewrite <- app_assoc; reflexivity].
    apply periodic_call; [exact Hi |].
    intros d' Hd'. rewrite Hd in Hd'. discriminate.
Qed.

Lemma periodic_run (t0 : Z) (st0 : dstate A) (n : nat) :
  forall (done cs cs' : list (Z * A)) (st st' : dstate A),
  burst_inv o t0 st0 done cs st ->
  run o n (cs, st) = (cs', st') ->
  exists done', burst_inv o t0 st0 done' cs' st' /\ done ++ cs = done' ++ cs'.
Proof.
  induction n as [| n IH]; intros done cs cs' st st' Hi Hr.
  - cbn in Hr. injection Hr as <- <-. exists done. auto.
  - cbn [run] in Hr. destruct (step o (cs, st)) as [[cs1 st1]|] eqn:E.
    + destruct (periodic_step t0 st0 done cs cs1 st st1 Hi E) as (done1 & Hi1 & Heq1).
      destruct (IH done1 cs1 cs' st1 st' Hi1 Hr) as (done2 & Hi2 & Heq2).
      exists done2. split; [exact Hi2 | rewrite Heq1; exact Heq2].
    + injection Hr as <- <-. exists done. auto.
Qed.

(** The first call of the burst, on a quiescent instance, arms the timer
    and starts the [maxWait] clock at [t0]. *)
Lemma periodic_start (t0 : Z) (st0 : dstate A) (a0 : A) (rest : list (Z * A)) :
  idle o t0 st0 = true ->
  continuous (wait o) ((t0, a0) :: rest) = true ->
  exists st1, step o ((t0, a0) :: rest, st0) = Some (rest, st1)
              /\ burst_inv o t0 st0 [(t0, a0)] rest st1.
Proof.
  intros Hid Hc. unfold idle in Hid.
  destruct (timerId st0) eqn:Etid; [discriminate |].
  destruct (timers st0) eqn:Etm; [| discriminate].
  cbn [negb andb] in Hid.
  eexists. split; [unfold step; rewrite Etm; cbn [min_timer]; reflexivity |].
  unfold debounced, leadingEdge, setTimeout. cbn [timerId]. rewrite Hid, Etid, Hlead.
  cbn [andb negb].
  exists [], t0. cbn [lastCallTime lastInvokeTime lastArgs timerId timers invoked map app hd].
  rewrite Etm. cbn [app].
  split; [reflexivity |]. split; [reflexivity |]. split; [constructor |].
  split; [reflexivity |]. split; [reflexivity |].
  split; [intros _; reflexivity |].
  split; [discriminate |].
  split; [discriminate |].
  split; [constructor; [lia | constructor] |].
  split.
  { destruct rest as [| [t a] rest']; [exact I |].
    cbn [continuous] in Hc. apply andb_prop in Hc as [Hc _]. apply andb_prop in Hc as [Hc1 Hc2].
    apply Z.leb_le in Hc1. apply Z.ltb_lt in Hc2. lia. }
  split; [destruct rest as [| [t a] rest']; [reflexivity |];
          cbn [continuous] in Hc; apply andb_prop in Hc as [_ Hc]; exact Hc |].
  constructor; [cbn; lia | constructor].
Qed.

(** A burst of continuous calls on a quiescent instance: once the calls
    are processed, the executions since [t0], with [t0] itself, are at
    most [maxWait] apart, and every call came within [maxWait] of the
    latest of them. *)
Lemma periodic_burst (t0 : Z) (st0 : dstate A) (a0 : A) (rest : list (Z * A)) (n : nat)
    (st' : dstate A) :
  idle o t0 st0 = true ->
  continuous (wait o) ((t0, a0) :: rest) = true ->
  run o n ((t0, a0) :: rest, st0) = ([], st') ->
  exists new,
    invoked st' = new ++ invoked st0
    /\ spaced (maxWait o) (map fst new ++ [t0]) = true
    /\ Forall (fun c => fst c <= hd t0 (map fst new) + maxWait o) rest
    /\ Forall (fun e : Z * option A => snd e <> None) new.
Proof.
  intros Hid Hc Hr.
  destruct n as [| n]; [cbn in Hr; discriminate |].
  destruct (periodic_start t0 st0 a0 rest Hid Hc) as (st1 & E1 & Hi1).
  cbn [run] in Hr. rewrite E1 in Hr.
  destruct (periodic_run t0 st0 n [(t0, a0)] rest [] st1 st' Hi1 Hr) as (done' & Hi' & Heq).
  rewrite app_nil_r in Heq. cbn in Heq. subst done'.
  destruct Hi' as (new & lct & Hinv & Hsp & Hargs & HL & _ & _ & _ & _ & _ & _ & _ & Hdone).
  exists new. split; [exact Hinv | split; [exact Hsp | split; [| exact Hargs]]].
  rewrite <- HL. inversion Hdone as [| ? ? _ Hrest]. exact Hrest.
Qed.

End Periodic.

End DebouncePeriodic.

(** C4: calls to [debouncedWriteStorage] that start a burst at [t0] on a
    quiescent instance, in time order and each less than 1000 after the
    one before: once the calls are processed, the storage writes since
    [t0] (latest first in [new], each with the documents of a call) are
    at most 5000 apart, the first at most 5000 after [t0], and every call
    came at most 5000 after the latest write, so no later call pushes a
    write back.  In particular a burst that goes on past [t0 + 5000] has
    written by [t0 + 5000]. *)
Theorem persist_saves_every_maxwait (t0 : Z) (a0 : Debounce.persist_args)
    (rest : list (Z * Debounce.persist_args)) (st0 : Debounce.dstate Debounce.persist_args)
    (n : nat) (st' : Debounce.dstate Debounce.persist_args) :
  Debounce.idle Debounce.persist_options t0 st0 = true ->
  Debounce.continuous 1000 ((t0, a0) :: rest) = true ->
  Debounce.run Debounce.persist_options n ((t0, a0) :: rest, st0) = ([], st') ->
  exists new,
    Debounce.invoked st' = new ++ Debounce.invoked st0
    /\ Debounce.spaced 5000 (map fst new ++ [t0]) = true
    /\ Forall (fun c => fst c <= hd t0 (map fst new) + 5000) rest
    /\ Forall (fun e : Z * option Debounce.persist_args => snd e <> None) new
    /\ ((exists t a, In (t, a) rest /\ t0 + 5000 < t) ->
        exists new1 t oa, new = new1 ++ [(t, oa)] /\ t <= t0 + 5000).
Proof.
  intros Hi Hc Hr.
  destruct (DebouncePeriodic.periodic_burst Debounce.persist_args Debounce.persist_options
              eq_refl eq_refl eq_refl ltac:(cbn; lia) ltac:(cbn; lia) t0 st0 a0 rest n st'
              Hi Hc Hr) as (new & Hinv & Hsp & Hcalls & Hargs).
  exists new. split; [exact Hinv | split; [exact Hsp | split; [exact Hcalls | split; [exact Hargs |]]]].
  intros (t & a & Hin & Ht).
  rewrite List.Forall_forall in Hcalls. specialize (Hcalls (t, a) Hin). cbn [fst] in Hcalls.
  destruct new as [| e new'] using rev_ind; [cbn in Hcalls; lia |].
  destruct e as [te oe]. exists new', te, oe. split; [reflexivity |].
  rewrite map_app, <- app_assoc in Hsp. cbn [map app] in Hsp.
  apply DebouncePeriodic.spaced_app in Hsp. cbn in Hsp.
  apply andb_prop in Hsp as [Hsp _]. apply andb_prop in Hsp as [_ Hsp].
  apply Z.leb_le in Hsp. exact Hsp.
Qed.

Lemma persist_saves_every_maxwait_witness :
  exists new,
    Debounce.invoked
      (snd (Debounce.run Debounce.persist_options 100
              ((0, ("h", "c", JNull)) ::
               map (fun k => (900 * Z.of_nat k, ("h", "c", JNum (Z.of_nat k)))) (seq 1 13),
               Debounce.init)))
    = new ++ Debounce.invoked (@Debounce.init Debounce.persist_args)
    /\ Debounce.spaced 5000 (map fst new ++ [0]) = true.
Proof.
  destruct (persist_saves_every_maxwait 0 ("h", "c", JNull)
              (map (fun k => (900 * Z.of_nat k, ("h", "c", JNum (Z.of_nat k)))) (seq 1 13))
              Debounce.init 100
              (snd (Debounce.run Debounce.persist_options 100
                      ((0, ("h", "c", JNull)) ::
                       map (fun k => (900 * Z.of_nat k, ("h", "c", JNum (Z.of_nat k)))) (seq 1 13),
                       Debounce.init))))
    as (new & Hinv & Hsp & _);
    [vm_compute; reflexivity | vm_compute; reflexivity | vm_compute; reflexivity |].
  exists new. split; [exact Hinv | exact Hsp].
Defined.
